(** * iati3w-data: name resolution and the location index

    A shallow embedding of [iati3w_common.py] (text normalisation, the
    organisation and location lookup tables, the two resolvers) and of
    [index-locations.py] (the location index), with the properties the
    specification states about them.

    Python values are modelled as follows.
    - [str]: a list of Unicode code points ([N]).
    - [None] or a string: [option (list N)].
    - a [dict] that the code only reads and writes by key: a [gmap];
      a JSON object that the code iterates over: a list of pairs, in
      document order.
    - a raised exception: the left injection of a sum.
    - the Unicode tables behind [\w], [str.lower] and [str.capitalize]:
      CPython's for the code points U+0000..U+017F; what is stated about
      the tokens of names and datasets is stated for texts within that
      range ([tabulated_text], [tabulated_orgs], [tabulated_map]).  The
      table of [str.isspace] is complete. *)

From stdpp Require Import gmap list.
From Stdlib Require Import String Ascii NArith Lia.

Local Open Scope N_scope.

(** ** Strings *)

Abbreviation char := N (only parsing).
Abbreviation str := (list N) (only parsing).

(** A string literal of the source, as code points. *)
Definition lit (s : string) : str :=
  List.map N_of_ascii (list_ascii_of_string s).

Definition between (lo hi c : char) : bool := (lo <=? c) && (c <=? hi).

Definition space : char := 32.

(** [str.isspace] on one character, which is also what [\s] matches in a
    [str] pattern: the complete table of CPython's Unicode database. *)
Definition isspace (c : char) : bool :=
  between 9 13 c || between 28 32 c || (c =? 133) || (c =? 160)
  || (c =? 5760) || between 8192 8202 c || (c =? 8232) || (c =? 8233)
  || (c =? 8239) || (c =? 8287) || (c =? 12288).

(** [str.isalnum] on one character.  The table is CPython's for the blocks
    Basic Latin, Latin-1 Supplement and Latin Extended-A (U+0000..U+017F);
    a code point beyond U+017F is taken to be a caseless character that is
    not alphanumeric, which is what the combining dot above U+0307 is. *)
Definition isalnum (c : char) : bool :=
  between 48 57 c || between 65 90 c || between 97 122 c
  || (c =? 170) || between 178 179 c || (c =? 181) || between 185 186 c
  || between 188 190 c || between 192 214 c || between 216 246 c
  || between 248 383 c.

(** What [\w] matches in a [str] pattern: alphanumeric or underscore. *)
Definition isword (c : char) : bool := isalnum c || (c =? 95).

(** What [\W] matches. *)
Definition nonword (c : char) : bool := negb (isword c).

(** [str.lower] on one character, same blocks as [isalnum].  U+0130 (capital
    I with dot above) lowers to two code points, [i] and U+0307. *)
Definition lower_char (c : char) : str :=
  if between 65 90 c || between 192 214 c || between 216 222 c then [c + 32]
  else if c =? 304 then [105; 775]
  else if c =? 376 then [255]
  else if (between 256 302 c || between 306 310 c || between 330 374 c)
          && N.even c then [c + 1]
  else if (between 313 327 c || between 377 381 c) && N.odd c then [c + 1]
  else [c].

(** [s.lower()] *)
Definition lower (s : str) : str := flat_map lower_char s.

Fixpoint dropwhile (p : char -> bool) (s : str) : str :=
  match s with
  | [] => []
  | c :: s' => if p c then dropwhile p s' else s
  end.

(** [s.lstrip()], [s.rstrip()] and [s.strip()] without argument. *)
Definition lstrip (s : str) : str := dropwhile isspace s.
Definition rstrip (s : str) : str := rev (dropwhile isspace (rev s)).
Definition strip (s : str) : str := rstrip (lstrip s).

(** [re.sub(p+, ' ', s)] for a one-character class [p]: every maximal run of
    characters of the class becomes one space.  [inrun] says that the
    previous character belonged to the class. *)
Fixpoint sub_runs_from (p : char -> bool) (inrun : bool) (s : str) : str :=
  match s with
  | [] => []
  | c :: s' =>
      if p c then
        if inrun then sub_runs_from p true s'
        else space :: sub_runs_from p true s'
      else c :: sub_runs_from p false s'
  end.

Definition sub_runs (p : char -> bool) (s : str) : str :=
  sub_runs_from p false s.

(** Python truth value of a string: [not s] is [negb (truthy s)]. *)
Definition truthy (s : str) : bool :=
  match s with [] => false | _ :: _ => true end.

(** [s.isspace()]: at least one character, all of them whitespace. *)
Definition str_isspace (s : str) : bool := truthy s && forallb isspace s.

(** Modelled from the spec: [hxl.datatypes.is_empty], which the repository
    imports from the libhxl package; the empty-detection predicate is true
    of null, of the empty string and of a whitespace-only string. *)
Definition is_empty (v : option str) : bool :=
  match v with
  | None => true
  | Some s => negb (truthy s) || str_isspace s
  end.

(** [normalise_string]: [None] for a falsy argument. *)
Definition normalise_string (s : str) : option str :=
  if negb (truthy s) then None
  else Some (sub_runs isspace (strip s)).

(** [make_token]: [re.sub(r'\W+', ' ', s).lower().strip()].  With the tables
    of [isword] and [lower_char] it is the function of the code on the
    strings of code points up to U+017F. *)
Definition make_token (s : str) : str :=
  strip (lower (sub_runs nonword s)).

(** ** Constants of [iati3w_common] *)

Definition ROLES : list str :=
  [lit "implementing"; lit "programming"; lit "funding"].
Definition SCOPES : list str :=
  [lit "local"; lit "regional"; lit "international"; lit "unknown"].
Definition SECTOR_TYPES : list str := [lit "dac"; lit "humanitarian"].
Definition LOCATION_TYPES : list str :=
  [lit "admin1"; lit "admin2"; lit "unclassified"].

(** ** Dictionaries and exceptions *)

(** [d.setdefault(k, v)], for its effect on [d]. *)
Definition setdefault {V} (k : str) (v : V) (d : gmap str V) : gmap str V :=
  match d !! k with
  | Some _ => d
  | None => <[k := v]> d
  end.

(** [d.get(k, [])] *)
Definition get_list {A} (d : gmap str (list A)) (k : str) : list A :=
  default [] (d !! k).

Inductive exn :=
  | KeyError (key : str)
  | FileNotFoundError (path : str).

Definition result (A : Type) : Type := exn + A.

#[global] Instance result_ret : MRet result := fun _ x => inr x.
#[global] Instance result_bind : MBind result := fun _ _ f m =>
  match m with
  | inl e => inl e
  | inr x => f x
  end.

(** [info["name"]] on a JSON object whose [name] member may be missing. *)
Definition getitem_name (name : option str) : result str :=
  match name with
  | Some n => inr n
  | None => inl (KeyError (lit "name"))
  end.

(** ** Reference entries

    The records carry the members the code reads or writes; [*_other]
    stands for the remaining members of the JSON object, which the code
    never touches.  A missing [synonyms] list, [admin2] map or
    [unclassified] map is read with a default of empty, so these members
    are lists. *)

Record org_info := {
  org_name : option str;
  org_scope : option str;
  org_synonyms : list str;
  org_other : list (str * str)
}.

Record site := {
  site_name : option str;
  site_synonyms : list str;
  site_admin1 : option str;
  site_admin2 : option str;
  site_other : list (str * str)
}.

Record district := {
  district_name : option str;
  district_synonyms : list str;
  district_admin1 : option str;
  district_unclassified : list (str * site);
  district_other : list (str * str)
}.

Record region := {
  region_name : option str;
  region_synonyms : list str;
  region_admin2 : list (str * district);
  region_other : list (str * str)
}.

(** [info2["admin1"] = n1] *)
Definition stamp_district (n1 : str) (d : district) : district :=
  {| district_name := district_name d;
     district_synonyms := district_synonyms d;
     district_admin1 := Some n1;
     district_unclassified := district_unclassified d;
     district_other := district_other d |}.

(** [info3["admin1"] = n1] and [info3["admin2"] = n2] *)
Definition stamp_site_admin1 (n1 : str) (s : site) : site :=
  {| site_name := site_name s;
     site_synonyms := site_synonyms s;
     site_admin1 := Some n1;
     site_admin2 := site_admin2 s;
     site_other := site_other s |}.

Definition stamp_site_admin2 (n2 : str) (s : site) : site :=
  {| site_name := site_name s;
     site_synonyms := site_synonyms s;
     site_admin1 := site_admin1 s;
     site_admin2 := Some n2;
     site_other := site_other s |}.

(** The sites of a district and the districts of a region are objects of
    the same heap: when one of them is written, its parent holds the
    written object. *)
Definition with_unclassified (sites : list (str * site)) (d : district)
  : district :=
  {| district_name := district_name d;
     district_synonyms := district_synonyms d;
     district_admin1 := district_admin1 d;
     district_unclassified := sites;
     district_other := district_other d |}.

Definition with_admin2 (districts : list (str * district)) (r : region)
  : region :=
  {| region_name := region_name r;
     region_synonyms := region_synonyms r;
     region_admin2 := districts;
     region_other := region_other r |}.

(** The objects that [json.load] makes for the location map are a tree, so
    an object is identified by its position: region [i], district [j] of
    region [i], site [k] of that district.  The lookup table holds such
    references, not copies. *)
Inductive ref :=
  | RegionRef (i : nat)
  | DistrictRef (i j : nat)
  | SiteRef (i j k : nat).

Inductive location_entry :=
  | Region (r : region)
  | District (d : district)
  | Site (s : site).

Definition get_region (map : list (str * region)) (i : nat)
  : option region := snd <$> map !! i.
Definition get_district (map : list (str * region)) (i j : nat)
  : option district :=
  r ← get_region map i; snd <$> region_admin2 r !! j.
Definition get_site (map : list (str * region)) (i j k : nat)
  : option site :=
  d ← get_district map i j; snd <$> district_unclassified d !! k.

(** The object a reference points at, in the current heap. *)
Definition deref (map : list (str * region)) (r : ref)
  : option location_entry :=
  match r with
  | RegionRef i => Region <$> get_region map i
  | DistrictRef i j => District <$> get_district map i j
  | SiteRef i j k => Site <$> get_site map i j k
  end.

(** ** Module state of [iati3w_common]

    [datasets] is what [get_dataset] returns for the path of a flat
    dataset and [location_map] what it returns for
    ["inputs/location-map.json"]; the two caches are the globals of the
    same names, and [stderr] the lines written to the error stream. *)
Record state := {
  datasets : gmap str (list (str * org_info));
  location_map : list (str * region);
  lookup_tables_loaded : gmap str (gmap str org_info);
  location_lookup_table : option (gmap str ref);
  stderr : list str
}.

Definition set_lookup_tables_loaded (t : gmap str (gmap str org_info))
  (st : state) : state :=
  {| datasets := datasets st;
     location_map := location_map st;
     lookup_tables_loaded := t;
     location_lookup_table := location_lookup_table st;
     stderr := stderr st |}.

Definition set_location_table (map : list (str * region))
  (t : gmap str ref) (st : state) : state :=
  {| datasets := datasets st;
     location_map := map;
     lookup_tables_loaded := lookup_tables_loaded st;
     location_lookup_table := Some t;
     stderr := stderr st |}.

(** [print(line, file=sys.stderr)] *)
Definition print_stderr (line : str) (st : state) : state :=
  {| datasets := datasets st;
     location_map := location_map st;
     lookup_tables_loaded := lookup_tables_loaded st;
     location_lookup_table := location_lookup_table st;
     stderr := stderr st ++ [line] |}.

(** ** Organisation lookup *)

(** [d.setdefault(make_token(name), info)] for every name of a list. *)
Definition setdefault_tokens {V} (names : list str) (info : V)
  (d : gmap str V) : gmap str V :=
  foldl (fun d name => setdefault (make_token name) info d) d names.

(** One turn of the loop of [get_lookup_table]. *)
Definition add_org (table : gmap str org_info) (item : str * org_info)
  : gmap str org_info :=
  let '(key, info) := item in
  let table := <[make_token key := info]> table in
  let table :=
    match org_name info with
    | Some name => setdefault (make_token name) info table
    | None => table
    end in
  setdefault_tokens (org_synonyms info) info table.

Definition get_lookup_table (path : str) (st : state)
  : result (gmap str org_info * state) :=
  match lookup_tables_loaded st !! path with
  | Some table => inr (table, st)
  | None =>
      match datasets st !! path with
      | None => inl (FileNotFoundError path)
      | Some map =>
          let table := foldl add_org ∅ map in
          inr (table,
               set_lookup_tables_loaded
                 (<[path := table]> (lookup_tables_loaded st)) st)
      end
  end.

Definition org_map_path : str := lit "inputs/org-map.json".

(** The entry that [lookup_org] makes up for a name it does not find. *)
Definition unknown_org (name : str) : org_info :=
  {| org_name := normalise_string name;
     org_scope := Some (lit "unknown");
     org_synonyms := [];
     org_other := [] |}.

Definition failed_lookup (token : str) : str :=
  lit "Failed lookup |" ++ token ++ lit "|".

(** [lookup_org]; the argument is [None] or a string. *)
Definition lookup_org (name : option str) (st : state)
  : result (option org_info * state) :=
  match name with
  | None => inr (None, st)
  | Some name =>
      if is_empty (Some name) then inr (None, st)
      else
        let token := make_token name in
        '(table, st) ← get_lookup_table org_map_path st;
        match table !! token with
        | Some info => inr (Some info, st)
        | None => inr (Some (unknown_org name),
                       print_stderr (failed_lookup token) st)
        end
  end.

(** ** Location lookup *)

(** The loop over the unclassified locations of district [j] of region
    [i], from the [k]-th on.  It returns the sites as the loop leaves them
    and the table. *)
Fixpoint sites_loop (i j : nat) (name1 name2 : option str) (k : nat)
  (sites : list (str * site)) (table : gmap str ref)
  : result (list (str * site) * gmap str ref) :=
  match sites with
  | [] => inr ([], table)
  | (name3, info3) :: rest =>
      let token3 := make_token name3 in
      n1 ← getitem_name name1;
      let info3 := stamp_site_admin1 n1 info3 in
      n2 ← getitem_name name2;
      let info3 := stamp_site_admin2 n2 info3 in
      let table := setdefault token3 (SiteRef i j k) table in
      let table :=
        setdefault_tokens (site_synonyms info3) (SiteRef i j k) table in
      '(rest, table) ← sites_loop i j name1 name2 (S k) rest table;
      inr ((name3, info3) :: rest, table)
  end.

(** The loop over the districts of region [i], from the [j]-th on. *)
Fixpoint districts_loop (i : nat) (name1 : option str) (j : nat)
  (districts : list (str * district)) (table : gmap str ref)
  : result (list (str * district) * gmap str ref) :=
  match districts with
  | [] => inr ([], table)
  | (name2, info2) :: rest =>
      let token2 := make_token name2 in
      n1 ← getitem_name name1;
      let info2 := stamp_district n1 info2 in
      let table := setdefault token2 (DistrictRef i j) table in
      '(sites, table) ←
        sites_loop i j name1 (district_name info2) 0
          (district_unclassified info2) table;
      let info2 := with_unclassified sites info2 in
      let table :=
        setdefault_tokens (district_synonyms info2) (DistrictRef i j) table in
      '(rest, table) ← districts_loop i name1 (S j) rest table;
      inr ((name2, info2) :: rest, table)
  end.

(** The loop over the regions, from the [i]-th on. *)
Fixpoint regions_loop (i : nat) (regions : list (str * region))
  (table : gmap str ref) : result (list (str * region) * gmap str ref) :=
  match regions with
  | [] => inr ([], table)
  | (name1, info1) :: rest =>
      let token1 := make_token name1 in
      let table := <[token1 := RegionRef i]> table in
      '(districts, table) ←
        districts_loop i (region_name info1) 0 (region_admin2 info1) table;
      let info1 := with_admin2 districts info1 in
      let table :=
        setdefault_tokens (region_synonyms info1) (RegionRef i) table in
      '(rest, table) ← regions_loop (S i) rest table;
      inr ((name1, info1) :: rest, table)
  end.

(** [get_location_lookup_table].  An uncaught [KeyError] ends the run, so
    no state comes back with it. *)
Definition get_location_lookup_table (st : state)
  : result (gmap str ref * state) :=
  match location_lookup_table st with
  | Some table => inr (table, st)
  | None =>
      '(map, table) ← regions_loop 0 (location_map st) ∅;
      inr (table, set_location_table map table st)
  end.

(** What [lookup_location] returns: an object of the location map, or a
    new object with the members [level] and [name]. *)
Inductive location_value :=
  | Found (r : ref)
  | Fallback (level : str) (name : option str).

(** [lookup_location]; the name is [None] or a string. *)
Definition lookup_location (name : option str) (loctype : str) (st : state)
  : result (option location_value * state) :=
  match name with
  | None => inr (None, st)
  | Some name =>
      if is_empty (Some name) then inr (None, st)
      else
        '(table, st) ← get_location_lookup_table st;
        inr (Some (default (Fallback loctype (normalise_string name))
                     (Found <$> table !! make_token name)), st)
  end.

(** ** The location index ([index-locations.py]) *)

Local Close Scope N_scope.

(** An activity of the input file: the members the script reads. *)
Record activity := {
  identifier : str;
  title : str;
  source : str;
  locations : gmap str (list str);
  orgs : gmap str (list str);
  sectors : gmap str (list str)
}.

(** What the index keeps of an activity. *)
Record activity_summary := {
  summary_identifier : str;
  summary_title : str;
  summary_source : str
}.

Record index_entry := {
  entry_activities : list activity_summary;
  entry_orgs : gmap str nat;
  entry_sectors : gmap str (gmap str nat)
}.

(** The default record of a location seen for the first time. *)
Definition new_entry : index_entry :=
  {| entry_activities := []; entry_orgs := ∅; entry_sectors := ∅ |}.

#[global] Instance index_entry_inhabited : Inhabited index_entry :=
  populate new_entry.

Definition summary (a : activity) : activity_summary :=
  {| summary_identifier := identifier a;
     summary_title := title a;
     summary_source := source a |}.

(** [d.setdefault(name, 0)] then [d[name] += 1].  The total lookup [!!!]
    reads a key that the [setdefault] before it has made present. *)
Definition increment (name : str) (d : gmap str nat) : gmap str nat :=
  let d := setdefault name 0 d in
  <[name := d !!! name + 1]> d.

(** One turn of the loop over the organisations of a role. *)
Definition add_org_name (d : gmap str nat) (org : str) : gmap str nat :=
  if negb (truthy org) then d
  else
    let org := strip org in
    increment org d.

(** The loop over [ROLES]. *)
Definition add_orgs (a : activity) (d : gmap str nat) : gmap str nat :=
  foldl (fun d role => foldl add_org_name d (get_list (orgs a) role)) d ROLES.

(** One turn of the loop over the sectors of a type. *)
Definition add_sector_name (type : str) (d : gmap str (gmap str nat))
  (sector : str) : gmap str (gmap str nat) :=
  if negb (truthy sector) then d
  else
    let sector := strip sector in
    <[type := increment sector (d !!! type)]> d.

(** The loop over [SECTOR_TYPES]. *)
Definition add_sectors (a : activity) (d : gmap str (gmap str nat))
  : gmap str (gmap str nat) :=
  foldl (fun d type =>
           let d := setdefault type ∅ d in
           foldl (add_sector_name type) d (get_list (sectors a) type))
    d SECTOR_TYPES.

(** One turn of the loop over the locations of a type. *)
Definition add_location (a : activity) (loctype : str)
  (index : gmap str (gmap str index_entry)) (location : str)
  : gmap str (gmap str index_entry) :=
  if negb (truthy location) then index
  else
    let location := strip location in
    let of_type := setdefault location new_entry (index !!! loctype) in
    let entry := of_type !!! location in
    let entry :=
      {| entry_activities := entry_activities entry ++ [summary a];
         entry_orgs := add_orgs a (entry_orgs entry);
         entry_sectors := add_sectors a (entry_sectors entry) |} in
    <[loctype := <[location := entry]> of_type]> index.

(** One turn of the loop over the activities. *)
Definition add_activity (index : gmap str (gmap str index_entry))
  (a : activity) : gmap str (gmap str index_entry) :=
  foldl (fun index loctype =>
           let index := setdefault loctype ∅ index in
           foldl (add_location a loctype) index
             (get_list (locations a) loctype))
    index LOCATION_TYPES.

(** The index that the script prints for a list of activities. *)
Definition index_locations (activities : list activity)
  : gmap str (gmap str index_entry) :=
  foldl add_activity ∅ activities.

(** ** Notions of the specification *)

(** A string in which no two spaces are adjacent. *)
Fixpoint single_spaced (s : list N) : Prop :=
  match s with
  | c :: (d :: _) as s' => ~ (c = space /\ d = space) /\ single_spaced s'
  | _ => True
  end.

(** What the specification asks of the token [t] of a string: lower case,
    word characters and single spaces only, no space at either end, and a
    fixed point of [make_token]. *)
Definition well_formed_token (t : list N) : Prop :=
  lower t = t
  /\ Forall (fun c => isword c = true \/ c = space) t
  /\ single_spaced t
  /\ head t <> Some space /\ last t <> Some space
  /\ make_token t = t.

(** A string whose word characters stay word characters in lower case. *)
Definition lowers_to_words (s : list N) : Prop :=
  Forall (fun c => isword c = true -> forallb isword (lower_char c) = true) s.

Definition is_ascii (s : list N) : Prop := Forall (fun c => (c < 128)%N) s.

(** A string that does not start, or end, with whitespace. *)
Definition starts_clean (s : list N) : Prop :=
  forall c, head s = Some c -> isspace c = false.
Definition ends_clean (s : list N) : Prop :=
  forall c, last s = Some c -> isspace c = false.

(** The raw string [raw] names [name]: the loops do not skip it, and
    trimming it gives [name]. *)
Definition listed (name raw : list N) : bool :=
  truthy raw && bool_decide (strip raw = name).

(** How many strings of a list name [name]. *)
Fixpoint occurrences (name : list N) (raws : list (list N)) : nat :=
  match raws with
  | [] => 0
  | raw :: rest => (if listed name raw then 1 else 0) + occurrences name rest
  end.

(** Occurrences of an organisation on an activity, all roles together,
    and of a location among its locations of one type. *)
Definition org_occurrences (a : activity) (org : list N) : nat :=
  occurrences org (flat_map (get_list (orgs a)) ROLES).

Definition location_occurrences (a : activity) (loctype location : list N)
  : nat :=
  occurrences location (get_list (locations a) loctype).

(** [index[loctype][location]] and [index[loctype][location]["orgs"][org]],
    when the keys are there. *)
Definition index_entry_at (index : gmap (list N) (gmap (list N) index_entry))
  (loctype location : list N) : option index_entry :=
  of_type ← index !! loctype; of_type !! location.

Definition org_counter (index : gmap (list N) (gmap (list N) index_entry))
  (loctype location org : list N) : option nat :=
  entry ← index_entry_at index loctype location; entry_orgs entry !! org.

(** [key] is [raw] without its leading and trailing whitespace. *)
Definition trimmed (raw key : list N) : Prop :=
  exists a b, raw = a ++ key ++ b
              /\ forallb isspace a = true /\ forallb isspace b = true
              /\ starts_clean key /\ ends_clean key.

(** What one turn of the location loop does to the entry of the location
    and to the map of the location type. *)
Definition touch (a : activity) (entry : index_entry) : index_entry :=
  {| entry_activities := entry_activities entry ++ [summary a];
     entry_orgs := add_orgs a (entry_orgs entry);
     entry_sectors := add_sectors a (entry_sectors entry) |}.

Definition add_location_of_type (a : activity)
  (of_type : gmap (list N) index_entry) (location : list N)
  : gmap (list N) index_entry :=
  if negb (truthy location) then of_type
  else
    <[strip location :=
        touch a (default new_entry (of_type !! strip location))]> of_type.

Definition add_activity_of_type (loctype : list N)
  (of_type : gmap (list N) index_entry) (a : activity)
  : gmap (list N) index_entry :=
  foldl (add_location_of_type a) of_type (get_list (locations a) loctype).

(** The map that the index holds for a location type, once at least one
    activity has been read. *)
Definition index_of_type (loctype : list N) (activities : list activity)
  : gmap (list N) index_entry :=
  foldl (add_activity_of_type loctype) ∅ activities.

(** The entry of a location in the map of a type, a new one if there is
    none yet. *)
Definition entry_of (of_type : gmap (list N) index_entry)
  (location : list N) : index_entry :=
  default new_entry (of_type !! location).

(** For each activity, the occurrences of the organisation times the
    occurrences of the location, summed over the activities. *)
Fixpoint expected_org_count (loctype location org : list N)
  (activities : list activity) : nat :=
  match activities with
  | [] => 0
  | a :: rest =>
      location_occurrences a loctype location * org_occurrences a org
      + expected_org_count loctype location org rest
  end.

Definition count_of (d : gmap (list N) nat) (name : list N) : nat :=
  default 0 (d !! name).

(** C8 as the specification words it: the counter of an organisation
    that two activities list at a location they both list is the sum of its
    occurrences on the two activities. *)
Definition org_counts_add_up : Prop :=
  forall (a b : activity) (loctype location org : list N),
    loctype ∈ LOCATION_TYPES ->
    0 < location_occurrences a loctype location ->
    0 < location_occurrences b loctype location ->
    0 < org_occurrences a org -> 0 < org_occurrences b org ->
    org_counter (index_locations [a; b]) loctype location org
    = Some (org_occurrences a org + org_occurrences b org).

(** ** Sample inputs *)

Definition an_activity (id : string) (locs orgs_ : list (list N))
  : activity :=
  {| identifier := lit id; title := lit "title"; source := lit "source";
     locations := {[ lit "admin1" := locs ]};
     orgs := {[ lit "implementing" := orgs_ ]};
     sectors := ∅ |}.

(** An activity that spells its one location in two ways. *)
Definition kabul_twice : activity :=
  an_activity "A" [lit "Kabul"; lit "Kabul "] [lit "Oxfam"].
Definition kabul_once : activity :=
  an_activity "B" [lit "Kabul"] [lit "Oxfam"].
Definition capital_city : activity :=
  an_activity "C" [lit "Capital  City "] [].
(** An activity with a location and an organisation made of spaces. *)
Definition blank_names : activity :=
  an_activity "D" [lit "   "; lit "Kabul"] [lit "  "].

(** ** The order of insertion into the location table

    The specification gives the order in which tokens are offered to the
    table.  [insertions] lists them in that order for a location map; each
    comes with the object it would point at and with its kind: the key of a
    region, the name of a district or of a site, or a synonym. *)

Inductive insertion_kind := RegionKey | Name | Synonym.

Definition insertion : Type := insertion_kind * list N * ref.

Definition insertion_token (e : insertion) : list N := snd (fst e).

Definition synonym_insertions (names : list (list N)) (r : ref)
  : list insertion :=
  List.map (fun name => (Synonym, make_token name, r)) names.

Fixpoint site_insertions (i j k : nat) (sites : list (list N * site))
  : list insertion :=
  match sites with
  | [] => []
  | (name3, info3) :: rest =>
      (Name, make_token name3, SiteRef i j k)
        :: synonym_insertions (site_synonyms info3) (SiteRef i j k)
        ++ site_insertions i j (S k) rest
  end.

Fixpoint district_insertions (i j : nat)
  (districts : list (list N * district)) : list insertion :=
  match districts with
  | [] => []
  | (name2, info2) :: rest =>
      (Name, make_token name2, DistrictRef i j)
        :: site_insertions i j 0 (district_unclassified info2)
        ++ synonym_insertions (district_synonyms info2) (DistrictRef i j)
        ++ district_insertions i (S j) rest
  end.

Fixpoint region_insertions (i : nat) (regions : list (list N * region))
  : list insertion :=
  match regions with
  | [] => []
  | (name1, info1) :: rest =>
      (RegionKey, make_token name1, RegionRef i)
        :: district_insertions i 0 (region_admin2 info1)
        ++ synonym_insertions (region_synonyms info1) (RegionRef i)
        ++ region_insertions (S i) rest
  end.

Definition insertions (map : list (list N * region)) : list insertion :=
  region_insertions 0 map.

(** What an insertion does to the table: the key of a region is assigned,
    a name or a synonym is set if the token is not there. *)
Definition insert_token (table : gmap (list N) ref) (e : insertion)
  : gmap (list N) ref :=
  match e with
  | (RegionKey, token, r) => <[token := r]> table
  | (_, token, r) => setdefault token r table
  end.

(** C1 as the specification words it: when the name of a district or of
    a site has the token of an earlier insertion, the table resolves the
    token to the first object inserted under it. *)
Definition earlier_entry_wins : Prop :=
  forall (st st' : state) (table : gmap (list N) ref)
         (pre mid after : list insertion) (token : list N) (first r : ref)
         (kind : insertion_kind),
    location_lookup_table st = None ->
    get_location_lookup_table st = inr (table, st') ->
    insertions (location_map st)
    = pre ++ (kind, token, first) :: mid ++ (Name, token, r) :: after ->
    Forall (fun e => insertion_token e <> token) pre ->
    table !! token = Some first.

(** ** Stamps *)

(** District [j] of region [i] carries the name of the region, and site
    [k] of that district the names of the region and of the district. *)
Definition district_stamped (map : list (list N * region)) (i j : nat)
  : Prop :=
  exists r d n1,
    get_region map i = Some r /\ get_district map i j = Some d
    /\ region_name r = Some n1 /\ district_admin1 d = Some n1.

Definition site_stamped (map : list (list N * region)) (i j k : nat)
  : Prop :=
  exists r d s n1 n2,
    get_region map i = Some r /\ get_district map i j = Some d
    /\ get_site map i j k = Some s
    /\ region_name r = Some n1 /\ district_name d = Some n2
    /\ site_admin1 s = Some n1 /\ site_admin2 s = Some n2.

(** The objects of the location map as the loops leave them. *)
Definition stamp_site (n1 n2 : list N) (s : site) : site :=
  stamp_site_admin2 n2 (stamp_site_admin1 n1 s).

Definition stamped_district (n1 : list N) (d : district) : district :=
  with_unclassified
    (prod_map id (stamp_site n1 (default [] (district_name d)))
       <$> district_unclassified d)
    (stamp_district n1 d).

Definition stamped_region (r : region) : region :=
  with_admin2
    (prod_map id (stamped_district (default [] (region_name r)))
       <$> region_admin2 r)
    r.

Definition stamped_map (map : list (list N * region))
  : list (list N * region) :=
  prod_map id stamped_region <$> map.

(** The location maps on which no [info["name"]] fails: a region that has
    districts has a name, and so has a district that has sites. *)
Definition district_named (item : list N * district) : bool :=
  match district_unclassified (snd item) with
  | [] => true
  | _ :: _ => bool_decide (is_Some (district_name (snd item)))
  end.

Definition region_named (item : list N * region) : bool :=
  match region_admin2 (snd item) with
  | [] => true
  | _ :: _ =>
      bool_decide (is_Some (region_name (snd item)))
      && forallb district_named (region_admin2 (snd item))
  end.

Definition all_named (map : list (list N * region)) : bool :=
  forallb region_named map.

(** ** Sample datasets *)

Definition a_site (name : string) (synonyms : list (list N)) : site :=
  {| site_name := Some (lit name); site_synonyms := synonyms;
     site_admin1 := None; site_admin2 := None; site_other := [] |}.

Definition a_district (name : string) (synonyms : list (list N))
  (sites : list (list N * site)) : district :=
  {| district_name := Some (lit name); district_synonyms := synonyms;
     district_admin1 := None; district_unclassified := sites;
     district_other := [] |}.

Definition a_region (name : string) (synonyms : list (list N))
  (districts : list (list N * district)) : region :=
  {| region_name := Some (lit name); region_synonyms := synonyms;
     region_admin2 := districts; region_other := [] |}.

(** A region, a district of it and a site of that district that share a
    token. *)
Definition kabul_map : list (list N * region) :=
  [(lit "Kabul",
    a_region "Kabul" [lit "Kabul Province"]
      [(lit "kabul",
        a_district "Kabul District" [lit "Paghman"]
          [(lit "KABUL", a_site "Kabul City" [lit "Kabul Town"])])])].

(** Two regions whose keys differ in case only; a district of the first
    has their token too. *)
Definition north_map : list (list N * region) :=
  [(lit "North",
    a_region "North" [] [(lit "north", a_district "North District" [] [])]);
   (lit "NORTH", a_region "Upper North" [] [])].

Definition org_sample : list (list N * org_info) :=
  [(lit "oxfam",
    {| org_name := Some (lit "Oxfam");
       org_scope := Some (lit "international");
       org_synonyms := [lit "Oxfam GB"];
       org_other := [] |})].

Definition fresh_state (orgs_ : list (list N * org_info))
  (map : list (list N * region)) : state :=
  {| datasets := {[ org_map_path := orgs_ ]};
     location_map := map;
     lookup_tables_loaded := ∅;
     location_lookup_table := None;
     stderr := [] |}.

(** ** The remaining utilities of [iati3w_common] *)

(** [if not s in result: result.append(s)] *)
Definition append_new (result : list (list N)) (s : list N)
  : list (list N) :=
  if bool_decide (s ∈ result) then result else result ++ [s].

(** [flatten]: the map is iterated, so it is a list of pairs in the order
    of its keys; [excludes] is the list of keys to leave out. *)
Definition flatten (map : list (list N * list (list N)))
  (excludes : list (list N)) : list (list N) :=
  foldl (fun result item =>
           if bool_decide (fst item ∈ excludes) then result
           else foldl append_new result (snd item))
    [] map.

(** [add_unique] without a key, on strings: the element is [None] or a
    string, and [str(element)] is the element.  The list is changed in
    place and returned, so the result is the list after the call. *)
Definition add_unique (element : option (list N)) (l : list (list N))
  : list (list N) :=
  match element with
  | None => l
  | Some e =>
      if negb (truthy e) then l
      else
        let s := e in
        if negb (is_empty (Some s)) && negb (bool_decide (s ∈ l))
        then l ++ [e]
        else l
  end.

(** [add_unique] with a key, on JSON objects whose members are strings:
    [str(element.get(key, ""))] is looked for among the
    [str(v1.get(key, None))], and [str(None)] is ["None"]. *)
Definition key_text (key : list N) (v : gmap (list N) (list N)) : list N :=
  default (lit "None") (v !! key).

Definition add_unique_by (key : list N)
  (element : option (gmap (list N) (list N)))
  (l : list (gmap (list N) (list N))) : list (gmap (list N) (list N)) :=
  match element with
  | None => l
  | Some e =>
      if bool_decide (e = ∅) then l
      else
        let s := default [] (e !! key) in
        if negb (is_empty (Some s))
           && negb (bool_decide (s ∈ key_text key <$> l))
        then l ++ [e]
        else l
  end.

(** A JSON object with the one member [key]. *)
Definition an_object (key value : string) : gmap (list N) (list N) :=
  {[ lit key := lit value ]}.

(** The names under which an entry of a flat dataset is offered to the
    table besides its key: its [name], if it has one, then its synonyms. *)
Definition names_of (info : org_info) : list (list N) :=
  match org_name info with
  | Some name => name :: org_synonyms info
  | None => org_synonyms info
  end.

(** An organisation, and a flat dataset in which the key of the second
    entry is a synonym of the first. *)
Definition an_org (name : string) (synonyms : list (list N)) : org_info :=
  {| org_name := Some (lit name); org_scope := Some (lit "international");
     org_synonyms := synonyms; org_other := [] |}.

Definition org_clash : list (list N * org_info) :=
  [(lit "oxfam", an_org "Oxfam" [lit "OGB"; lit "Oxfam Intl"]);
   (lit "ogb", an_org "Oxfam GB" [lit "Oxfam Intl"])].

(** The location maps on which the build does not fail, said of the
    objects: a region that has a district has a name, and a district that
    has a site has a name. *)
Definition names_present (map : list (list N * region)) : Prop :=
  forall i r,
    get_region map i = Some r ->
    (region_admin2 r <> [] -> is_Some (region_name r))
    /\ forall j d,
         get_district map i j = Some d ->
         district_unclassified d <> [] -> is_Some (district_name d).

(** A location map whose second region has a district and no name. *)
Definition nameless_map : list (list N * region) :=
  [(lit "Kabul", a_region "Kabul" [] []);
   (lit "Herat",
    {| region_name := None; region_synonyms := [];
       region_admin2 := [(lit "Injil", a_district "Injil" [] [])];
       region_other := [] |})].

(** ** More notions of the location index *)

(** The summaries that the entry of a location lists: that of each
    activity, once for each of its location strings that trim to the
    location, in the order of the activities. *)
Definition expected_activities (loctype location : list N)
  (activities : list activity) : list activity_summary :=
  flat_map (fun a =>
              replicate (location_occurrences a loctype location) (summary a))
    activities.

Definition sector_occurrences (a : activity) (type sector : list N) : nat :=
  occurrences sector (get_list (sectors a) type).

Fixpoint expected_sector_count (loctype location type sector : list N)
  (activities : list activity) : nat :=
  match activities with
  | [] => 0
  | a :: rest =>
      location_occurrences a loctype location
      * sector_occurrences a type sector
      + expected_sector_count loctype location type sector rest
  end.

(** [index[loctype][location]["sectors"][type][sector]], when the keys are
    there. *)
Definition sector_counter (index : gmap (list N) (gmap (list N) index_entry))
  (loctype location type sector : list N) : option nat :=
  entry ← index_entry_at index loctype location;
  of_type ← entry_sectors entry !! type;
  of_type !! sector.

(** An activity with sectors, listed in two districts. *)
Definition health_activity : activity :=
  {| identifier := lit "H"; title := lit "Clinics"; source := lit "source";
     locations := {[ lit "admin2" := [lit "Injil"; lit " Guzara"; lit ""] ]};
     orgs := {[ lit "funding" := [lit "ECHO"];
                lit "implementing" := [lit "MSF "; lit "ECHO"] ]};
     sectors := {[ lit "dac" := [lit "Health"; lit " Health "; lit "WASH"];
                   lit "other" := [lit "ignored"] ]} |}.

(** ** [fix_location] *)

Section FixLocation.

Local Open Scope N_scope.

(** The title case of one character, which [str.capitalize] gives to the
    first character of a string: CPython's table for U+0000..U+017F, as for
    [lower_char]. *)
Definition title_char (c : N) : list N :=
  if between 97 122 c || between 224 246 c || between 248 254 c then [c - 32]
  else if c =? 181 then [924]
  else if c =? 223 then [83; 115]
  else if c =? 255 then [376]
  else if c =? 305 then [73]
  else if c =? 329 then [700; 78]
  else if c =? 383 then [83]
  else if (between 257 303 c || between 307 311 c || between 331 375 c)
          && N.odd c then [c - 1]
  else if (between 314 328 c || between 378 382 c) && N.even c then [c - 1]
  else [c].

(** [s.capitalize()] *)
Definition capitalize (s : list N) : list N :=
  match s with
  | [] => []
  | c :: rest => title_char c ++ lower rest
  end.

(** [s.split()]: the maximal runs of characters that are not whitespace.
    [word] is the run that is being read. *)
Fixpoint split_from (word s : list N) : list (list N) :=
  match s with
  | [] => if truthy word then [word] else []
  | c :: rest =>
      if isspace c then
        if truthy word then word :: split_from [] rest
        else split_from [] rest
      else split_from (word ++ [c]) rest
  end.

Definition split (s : list N) : list (list N) := split_from [] s.

(** [' '.join(words)] *)
Fixpoint join (words : list (list N)) : list N :=
  match words with
  | [] => []
  | [word] => word
  | word :: rest => word ++ space :: join rest
  end.

(** [string.capwords(s)] *)
Definition capwords (s : list N) : list N :=
  join (capitalize <$> split s).

(** [fix_location]: [normalise_string] gives [None] for the falsy strings
    only, which are those of the [else] branch.  With the tables of
    [lower_char] and [title_char] it is the function of the code on the
    strings of code points up to U+017F. *)
Definition fix_location (s : list N) : list N :=
  if truthy s then
    match normalise_string s with
    | Some normalised => capwords normalised
    | None => []
    end
  else [].

End FixLocation.

(** A word: a string that is not empty and has no whitespace. *)
Definition is_word (w : list N) : Prop :=
  w <> [] /\ Forall (fun c => isspace c = false) w.

(** A map of lists with a repeated string and a key to exclude. *)
Definition roles_sample : list (list N * list (list N)) :=
  [(lit "implementing", [lit "MSF"; lit "ECHO"]);
   (lit "skipped", [lit "UNHCR"]);
   (lit "funding", [lit "ECHO"; lit "DFID"])].

(** ** The range of the character tables *)

(** [isalnum], [lower_char] and [title_char] are CPython's tables for the
    code points U+0000..U+017F only, so [make_token] and [fix_location]
    are those of the code on texts within that range.  What is stated
    about tokens of arbitrary names is stated for such texts: a text, a
    flat dataset and a location map all of whose tokenised strings (keys,
    names for a flat dataset, synonyms) are within the range. *)
Definition tabulated_text (s : list N) : Prop :=
  Forall (fun c => (c < 384)%N) s.

Definition tabulated_org (item : list N * org_info) : Prop :=
  tabulated_text (fst item)
  /\ (forall name, org_name (snd item) = Some name -> tabulated_text name)
  /\ Forall tabulated_text (org_synonyms (snd item)).

Definition tabulated_orgs (map : list (list N * org_info)) : Prop :=
  Forall tabulated_org map.

Definition tabulated_site (item : list N * site) : Prop :=
  tabulated_text (fst item)
  /\ Forall tabulated_text (site_synonyms (snd item)).

Definition tabulated_district (item : list N * district) : Prop :=
  tabulated_text (fst item)
  /\ Forall tabulated_text (district_synonyms (snd item))
  /\ Forall tabulated_site (district_unclassified (snd item)).

Definition tabulated_region (item : list N * region) : Prop :=
  tabulated_text (fst item)
  /\ Forall tabulated_text (region_synonyms (snd item))
  /\ Forall tabulated_district (region_admin2 (snd item)).

Definition tabulated_map (map : list (list N * region)) : Prop :=
  Forall tabulated_region map.

(** * Text normalisation *)

Section Characters.

Local Open Scope N_scope.

(** A property of characters that holds of the first 384 code points, by
    enumeration, holds of every code point below 384. *)
Lemma tabulated (P : N -> bool) :
  forallb P (List.map N.of_nat (seq 0 384)) = true ->
  forall c, c < 384 -> P c = true.
Proof.
  intros H c Hc. rewrite forallb_forall in H. apply H.
  rewrite <- (N2Nat.id c). apply in_map, in_seq. lia.
Qed.

Ltac beyond :=
  unfold isword, isalnum, lower_char, between;
  repeat match goal with
    | |- context [(?a <=? ?b)] =>
        first [ rewrite (proj2 (N.leb_le a b)) by lia
              | rewrite (proj2 (N.leb_gt a b)) by lia ]
    | |- context [(?a =? ?b)] => rewrite (proj2 (N.eqb_neq a b)) by lia
    end; simpl.

Lemma isword_beyond c : 384 <= c -> isword c = false.
Proof. intros H. beyond. reflexivity. Qed.

Lemma lower_char_beyond c : 384 <= c -> lower_char c = [c].
Proof. intros H. beyond. reflexivity. Qed.

Lemma isword_not_isspace c : isword c = true -> isspace c = false.
Proof.
  intros H. destruct (N.lt_ge_cases c 384) as [Hc | Hc].
  - revert H.
    pose proof (tabulated (fun c => implb (isword c) (negb (isspace c)))
                  eq_refl c Hc) as T.
    simpl in T. destruct (isword c), (isspace c); simpl in *; congruence.
  - rewrite isword_beyond in H by assumption. discriminate.
Qed.

(** [str.lower] is idempotent character by character. *)
Lemma lower_char_fixed c d : In d (lower_char c) -> lower_char d = [d].
Proof.
  intros H. destruct (N.lt_ge_cases c 384) as [Hc | Hc].
  - pose proof (tabulated
      (fun c => forallb (fun d => bool_decide (lower_char d = [d]))
                  (lower_char c)) eq_refl c Hc) as T.
    simpl in T. rewrite forallb_forall in T.
    apply T in H. apply bool_decide_eq_true in H. exact H.
  - rewrite lower_char_beyond in H by assumption.
    destruct H as [<- | []]. apply lower_char_beyond. assumption.
Qed.

Lemma lower_char_nonempty c : lower_char c <> [].
Proof.
  unfold lower_char.
  repeat match goal with |- context [if ?b then _ else _] => destruct b end;
    discriminate.
Qed.

(** No character but the space lowers to a string with a space in it. *)
Lemma lower_char_no_space c :
  c <> space -> Forall (fun d => d <> space) (lower_char c).
Proof.
  intros Hne. destruct (N.lt_ge_cases c 384) as [Hc | Hc].
  - pose proof (tabulated
      (fun c => (c =? space)
                || forallb (fun d => negb (d =? space)) (lower_char c))
      eq_refl c Hc) as T.
    simpl in T. rewrite (proj2 (N.eqb_neq c space) Hne) in T. simpl in T.
    rewrite forallb_forall in T. apply List.Forall_forall.
    intros d Hd. apply T in Hd. apply negb_true_iff, N.eqb_neq in Hd.
    exact Hd.
  - rewrite (lower_char_beyond c Hc). repeat constructor. exact Hne.
Qed.

(** Apart from U+0130, word characters stay word characters. *)
Lemma lower_char_word c :
  c <> 304 -> isword c = true -> forallb isword (lower_char c) = true.
Proof.
  intros Hne H. destruct (N.lt_ge_cases c 384) as [Hc | Hc].
  - pose proof (tabulated
      (fun c => (c =? 304) || implb (isword c)
                                (forallb isword (lower_char c)))
      eq_refl c Hc) as T.
    simpl in T. rewrite (proj2 (N.eqb_neq c 304) Hne), H in T. exact T.
  - rewrite isword_beyond in H by assumption. discriminate.
Qed.

End Characters.

Section Strip.

Lemma last_rev (s : list N) : last (rev s) = head s.
Proof. destruct s as [| c s]; [reflexivity | apply last_snoc]. Qed.

Lemma dropwhile_split p s :
  exists a, s = a ++ dropwhile p s /\ forallb p a = true.
Proof.
  induction s as [| c s [a [E F]]]; [exists []; auto |].
  simpl. destruct (p c) eqn:Hc.
  - exists (c :: a). simpl. rewrite Hc, F, <- E. auto.
  - exists []. auto.
Qed.

Lemma dropwhile_head p s c : head (dropwhile p s) = Some c -> p c = false.
Proof.
  induction s as [| d s IH]; simpl; [discriminate |].
  destruct (p d) eqn:Hd; [exact IH |].
  simpl. congruence.
Qed.

Lemma dropwhile_id p s :
  (forall c, head s = Some c -> p c = false) -> dropwhile p s = s.
Proof.
  destruct s as [| c s]; [reflexivity |].
  intros H. simpl. rewrite (H c); reflexivity.
Qed.

Lemma lstrip_split s :
  exists a, s = a ++ lstrip s /\ forallb isspace a = true.
Proof. apply dropwhile_split. Qed.

Lemma rstrip_split s :
  exists b, s = rstrip s ++ b /\ forallb isspace b = true.
Proof.
  unfold rstrip. destruct (dropwhile_split isspace (rev s)) as [a [E F]].
  exists (rev a). split.
  - rewrite <- rev_app_distr, <- E. symmetry. apply rev_involutive.
  - rewrite forallb_forall in *. intros c Hc. apply F, in_rev, Hc.
Qed.

Lemma rstrip_ends_clean s : ends_clean (rstrip s).
Proof.
  unfold rstrip. intros c. rewrite last_rev. apply dropwhile_head.
Qed.

(** [strip] cuts a whitespace prefix and a whitespace suffix off. *)
Lemma strip_split s :
  exists a b, s = a ++ strip s ++ b
              /\ forallb isspace a = true /\ forallb isspace b = true.
Proof.
  destruct (lstrip_split s) as [a [Ea Fa]].
  destruct (rstrip_split (lstrip s)) as [b [Eb Fb]].
  exists a, b. unfold strip. rewrite <- Eb. auto.
Qed.

(** What is left neither starts nor ends with whitespace. *)
Lemma strip_clean s : starts_clean (strip s) /\ ends_clean (strip s).
Proof.
  split; [| apply rstrip_ends_clean].
  unfold strip. destruct (rstrip_split (lstrip s)) as [b [Eb _]].
  intros c Hc. apply (dropwhile_head isspace s). fold (lstrip s).
  rewrite Eb, head_app, Hc. reflexivity.
Qed.

Lemma strip_id s : starts_clean s -> ends_clean s -> strip s = s.
Proof.
  intros Hs He. unfold strip, lstrip. rewrite (dropwhile_id _ s Hs).
  unfold rstrip. rewrite dropwhile_id; [apply rev_involutive |].
  intros c. rewrite <- last_rev, rev_involutive. apply He.
Qed.

(** A string of whitespace strips to the empty string. *)
Lemma strip_blank s : forallb isspace s = true -> strip s = [].
Proof.
  intros H. destruct (strip_split s) as [a [b [E _]]].
  destruct (strip s) as [| c t] eqn:S; [reflexivity |].
  destruct (strip_clean s) as [Hc _]. rewrite S in Hc.
  specialize (Hc c eq_refl). rewrite forallb_forall in H.
  rewrite (H c) in Hc; [discriminate |].
  rewrite E. apply in_or_app. right. left. reflexivity.
Qed.

End Strip.

Section Spacing.

Lemma single_spaced_cons c s :
  single_spaced (c :: s)
  <-> (c = space -> head s <> Some space) /\ single_spaced s.
Proof.
  destruct s as [| d s]; simpl.
  - split; [intros _; split; [discriminate | exact I] | auto].
  - split; intros [H1 H2]; (split; [| exact H2]).
    + intros -> [= ->]. apply H1. auto.
    + intros [-> ->]. apply H1; reflexivity.
Qed.

Lemma single_spaced_app_r a s : single_spaced (a ++ s) -> single_spaced s.
Proof.
  induction a as [| c a IH]; [auto |].
  rewrite <- app_comm_cons, single_spaced_cons. intros [_ H]. auto.
Qed.

Lemma single_spaced_app_l s b : single_spaced (s ++ b) -> single_spaced s.
Proof.
  induction s as [| c s IH]; [intros _; exact I |].
  rewrite <- app_comm_cons, !single_spaced_cons. intros [H1 H2].
  split; [| auto]. intros Hc Hh. apply H1; [exact Hc |].
  rewrite head_app, Hh. reflexivity.
Qed.

Lemma single_spaced_words l s :
  Forall (fun c => c <> space) l -> single_spaced s ->
  single_spaced (l ++ s).
Proof.
  induction 1 as [| c l Hc Hl IH]; [auto |]. intros Hs.
  rewrite <- app_comm_cons, single_spaced_cons. split; [| auto].
  intros ->. contradiction.
Qed.

End Spacing.

Section Runs.

Variable p : N -> bool.
Hypothesis p_space : p space = true.

(** The result of the substitution is made of spaces and of characters
    of the argument that are outside the class. *)
Lemma sub_runs_from_members b s :
  Forall (fun c => c = space \/ (p c = false /\ In c s))
    (sub_runs_from p b s).
Proof.
  revert b. induction s as [| c s IH]; intros b; simpl; [constructor |].
  assert (forall b', Forall
            (fun d => d = space \/ (p d = false /\ (c = d \/ In d s)))
            (sub_runs_from p b' s)) as IH'.
  { intros b'. eapply Forall_impl; [apply IH |]. simpl. tauto. }
  destruct (p c) eqn:Hc; [destruct b |]; auto.
Qed.

Lemma sub_runs_from_single b s :
  single_spaced (sub_runs_from p b s)
  /\ (b = true -> head (sub_runs_from p b s) <> Some space).
Proof.
  revert b. induction s as [| c s IH]; intros b; simpl.
  - split; [exact I | discriminate].
  - destruct (p c) eqn:Hc; [destruct b |].
    + apply IH.
    + split; [| discriminate].
      apply single_spaced_cons. split; [intros _ |]; apply (IH true).
      reflexivity.
    + assert (c <> space) by congruence.
      split; [| simpl; congruence].
      apply single_spaced_cons. split; [contradiction | apply IH].
Qed.

(** A string of single spaces and characters outside the class is left
    as it is. *)
Lemma sub_runs_from_fixed b t :
  Forall (fun c => c = space \/ p c = false) t ->
  single_spaced t ->
  (b = true -> head t <> Some space) ->
  sub_runs_from p b t = t.
Proof.
  intros F. revert b. induction F as [| c t Hc F IH]; intros b S Hb.
  - reflexivity.
  - apply single_spaced_cons in S as [S1 S2]. simpl.
    destruct Hc as [-> | Hc].
    + rewrite p_space. destruct b.
      * exfalso. apply Hb; reflexivity.
      * f_equal. apply IH; auto.
    + rewrite Hc. f_equal. apply IH; [exact S2 | discriminate].
Qed.

End Runs.

Section Lower.

Lemma lower_fixed t : Forall (fun c => lower_char c = [c]) t -> lower t = t.
Proof.
  induction 1 as [| c t Hc _ IH]; [reflexivity |].
  unfold lower in *. simpl. rewrite Hc, IH. reflexivity.
Qed.

Lemma lower_all_fixed s : Forall (fun d => lower_char d = [d]) (lower s).
Proof.
  unfold lower. apply List.Forall_forall. intros d Hd.
  apply in_flat_map in Hd as [c [_ Hd]]. eapply lower_char_fixed, Hd.
Qed.

Lemma word_not_space c : isword c = true -> c <> space.
Proof. intros H ->. discriminate. Qed.

Lemma lower_shape w :
  Forall (fun c => c = space
                   \/ (isword c = true
                       /\ forallb isword (lower_char c) = true)) w ->
  single_spaced w ->
  Forall (fun d => isword d = true \/ d = space) (lower w)
  /\ single_spaced (lower w)
  /\ (head w <> Some space -> head (lower w) <> Some space).
Proof.
  induction 1 as [| c w Hc _ IH]; intros S.
  - repeat split; [constructor | auto].
  - apply single_spaced_cons in S as [S1 S2].
    destruct (IH S2) as [IH1 [IH2 IH3]].
    change (lower (c :: w)) with (lower_char c ++ lower w).
    destruct Hc as [-> | [Hc Hl]].
    + change (lower_char space) with [space]. simpl.
      repeat split; [constructor; auto | | congruence].
      apply single_spaced_cons. auto.
    + rewrite forallb_forall in Hl.
      assert (Forall (fun d => isword d = true) (lower_char c)) as W
        by (apply List.Forall_forall; exact Hl).
      repeat split.
      * apply Forall_app. split; [| exact IH1].
        eapply Forall_impl; [exact W | simpl; auto].
      * apply single_spaced_words; [| exact IH2].
        eapply Forall_impl; [exact W | apply word_not_space].
      * intros _. pose proof (lower_char_nonempty c) as Hn.
        destruct (lower_char c) as [| d l]; [contradiction |].
        simpl. inversion W; subst. intros [= ->]. discriminate.
Qed.

(** [str.lower] keeps single spaces single, whatever the other
    characters are. *)
Lemma lower_spacing w :
  single_spaced w ->
  single_spaced (lower w)
  /\ (head w <> Some space -> head (lower w) <> Some space).
Proof.
  induction w as [| c w IH]; intros S.
  - split; [exact I | auto].
  - apply single_spaced_cons in S as [S1 S2].
    destruct (IH S2) as [IH1 IH2].
    change (lower (c :: w)) with (lower_char c ++ lower w).
    destruct (N.eq_dec c space) as [-> | Hc].
    + change (lower_char space) with [space]. simpl.
      split; [| congruence]. apply single_spaced_cons. auto.
    + pose proof (lower_char_no_space c Hc) as W. split.
      * apply single_spaced_words; assumption.
      * intros _. pose proof (lower_char_nonempty c) as Hn.
        destruct (lower_char c) as [| d l]; [contradiction |].
        simpl. inversion W; subst. congruence.
Qed.

End Lower.

Section Tokens.

Lemma is_ascii_lowers_to_words s : is_ascii s -> lowers_to_words s.
Proof.
  intros H. eapply Forall_impl; [exact H |]. simpl.
  intros c Hc. apply lower_char_word. lia.
Qed.

(** A string that has the shape of a token is its own token. *)
Lemma make_token_fixed t :
  Forall (fun c => isword c = true \/ c = space) t ->
  Forall (fun c => lower_char c = [c]) t ->
  single_spaced t -> starts_clean t -> ends_clean t ->
  make_token t = t.
Proof.
  intros W L S Hs He. unfold make_token, sub_runs.
  rewrite (sub_runs_from_fixed nonword eq_refl);
    [| | exact S | discriminate].
  - rewrite (lower_fixed t L). apply strip_id; assumption.
  - eapply Forall_impl; [exact W |]. unfold nonword. simpl.
    intros c [-> | ->]; auto.
Qed.

(** C6 as stated fails: the token of U+0130 holds the combining dot above
    U+0307, which is not a word character, and the token of that token is
    the single letter [i]. *)
Lemma make_token_dotted_capital_i :
  ~ (forall s : list N, well_formed_token (make_token s)).
Proof.
  intros H. destruct (H [304%N]) as (_ & _ & _ & _ & _ & E).
  vm_compute in E. discriminate.
Qed.

(** The token of a string whose word characters stay word characters in
    lower case has all that the specification asks of a token. *)
Lemma make_token_words (s : list N) :
  lowers_to_words s -> well_formed_token (make_token s).
Proof.
  intros Hs. set (w := sub_runs nonword s).
  assert (Forall (fun c => c = space
                           \/ (isword c = true
                               /\ forallb isword (lower_char c) = true)) w)
    as Hw.
  { unfold w, sub_runs, lowers_to_words in *.
    pose proof (sub_runs_from_members nonword false s) as M.
    rewrite List.Forall_forall in *. intros c Hc.
    destruct (M c Hc) as [-> | [Hn Hin]]; [auto |]. right.
    apply negb_false_iff in Hn. split; [exact Hn |].
    apply (Hs c Hin Hn). }
  destruct (sub_runs_from_single nonword eq_refl false s) as [Sw _].
  destruct (lower_shape w Hw Sw) as (Wl & Sl & _).
  pose proof (lower_all_fixed w) as Fl.
  unfold make_token. fold w.
  destruct (strip_split (lower w)) as (a & b & E & _ & _).
  destruct (strip_clean (lower w)) as [Cs Ce].
  set (t := strip (lower w)) in *.
  rewrite E in Wl, Sl, Fl.
  apply Forall_app in Wl as [_ Wl]. apply Forall_app in Wl as [Wt _].
  apply Forall_app in Fl as [_ Fl]. apply Forall_app in Fl as [Ft _].
  apply single_spaced_app_r, single_spaced_app_l in Sl.
  repeat split.
  - apply lower_fixed, Ft.
  - exact Wt.
  - exact Sl.
  - intros H. discriminate (Cs _ H).
  - intros H. discriminate (Ce _ H).
  - apply make_token_fixed; assumption.
Qed.

(** The token of any string is in lower case, has no two adjacent spaces
    and no space at either end. *)
Lemma make_token_spacing (s : list N) :
  lower (make_token s) = make_token s
  /\ single_spaced (make_token s)
  /\ head (make_token s) <> Some space
  /\ last (make_token s) <> Some space.
Proof.
  set (w := sub_runs nonword s).
  destruct (sub_runs_from_single nonword eq_refl false s) as [Sw _].
  destruct (lower_spacing w Sw) as [Sl _].
  pose proof (lower_all_fixed w) as Fl.
  unfold make_token. fold w.
  destruct (strip_split (lower w)) as (a & b & E & _ & _).
  destruct (strip_clean (lower w)) as [Cs Ce].
  set (t := strip (lower w)) in *.
  rewrite E in Sl, Fl.
  apply Forall_app in Fl as [_ Fl]. apply Forall_app in Fl as [Ft _].
  apply single_spaced_app_r, single_spaced_app_l in Sl.
  repeat split.
  - apply lower_fixed, Ft.
  - exact Sl.
  - intros H. discriminate (Cs _ H).
  - intros H. discriminate (Ce _ H).
Qed.

(** C6, amended: for every string [s] of code points up to U+017F, the
    token [make_token s] is in lower case, has no two adjacent spaces and
    no space at either end; and if the word characters of [s] all lowercase
    to word characters (all but U+0130 do), the token is moreover made of
    word characters and single spaces only and [make_token] leaves it
    unchanged. *)
Theorem make_token_well_formed (s : list N) :
  tabulated_text s ->
  (lower (make_token s) = make_token s
   /\ single_spaced (make_token s)
   /\ head (make_token s) <> Some space
   /\ last (make_token s) <> Some space)
  /\ (lowers_to_words s -> well_formed_token (make_token s)).
Proof.
  intros _. split; [apply make_token_spacing | apply make_token_words].
Qed.

Lemma make_token_well_formed_witness :
  tabulated_text (lit "New  York")
  /\ lowers_to_words (lit "New  York")
  /\ well_formed_token (make_token (lit "New  York")).
Proof.
  assert (tabulated_text (lit "New  York")) as T.
  { unfold tabulated_text. repeat constructor. }
  assert (lowers_to_words (lit "New  York")) as H.
  { apply is_ascii_lowers_to_words. unfold is_ascii.
    repeat constructor. }
  split; [exact T | split; [exact H |]].
  apply (make_token_well_formed _ T), H.
Defined.

(** The spellings that the specification gives as equal tokens. *)
Example make_token_spellings :
  make_token (lit "New  York") = make_token (lit "new-york")
  /\ make_token (lit "new-york") = make_token (lit "NEW YORK").
Proof. split; reflexivity. Qed.

End Tokens.

(** * Dictionaries *)

Section Dictionaries.

Context {V : Type}.
Implicit Types (d : gmap (list N) V) (k : list N).

Lemma lookup_setdefault k v d k' :
  setdefault k v d !! k'
  = if decide (k = k') then Some (default v (d !! k)) else d !! k'.
Proof.
  unfold setdefault. destruct (d !! k) as [x |] eqn:E.
  - destruct (decide (k = k')) as [<- |]; [exact E | reflexivity].
  - rewrite lookup_insert. reflexivity.
Qed.

Lemma lookup_setdefault_eq k v d :
  setdefault k v d !! k = Some (default v (d !! k)).
Proof. rewrite lookup_setdefault, decide_True; reflexivity. Qed.

Lemma lookup_setdefault_ne k v d k' :
  k <> k' -> setdefault k v d !! k' = d !! k'.
Proof. intros H. rewrite lookup_setdefault, decide_False; auto. Qed.

(** A key that is there stays, with its value: first writer wins. *)
Lemma lookup_setdefault_Some k v d k' x :
  d !! k' = Some x -> setdefault k v d !! k' = Some x.
Proof.
  intros H. rewrite lookup_setdefault.
  destruct (decide (k = k')) as [-> |]; [rewrite H |]; auto.
Qed.

Lemma insert_setdefault k v w d : <[k := w]> (setdefault k v d) = <[k := w]> d.
Proof.
  unfold setdefault. destruct (d !! k); [reflexivity |].
  apply insert_insert_eq.
Qed.

End Dictionaries.

(** * The location index *)

Section Counters.

Implicit Types (d : gmap (list N) nat) (name org : list N).

Lemma foldl_flat_map {A B C} (f : A -> C -> A) (g : B -> list C) l a :
  foldl (fun a x => foldl f a (g x)) a l = foldl f a (flat_map g l).
Proof.
  revert a. induction l as [| x l IH]; intros a; simpl; [reflexivity |].
  rewrite foldl_app. apply IH.
Qed.

Lemma count_of_increment name d org :
  count_of (increment name d) org
  = count_of d org + (if decide (name = org) then 1 else 0).
Proof.
  unfold count_of, increment. rewrite lookup_insert.
  destruct (decide (name = org)) as [<- | Hne]; simpl.
  - rewrite (lookup_total_correct _ _ _ (lookup_setdefault_eq name 0 d)).
    reflexivity.
  - rewrite lookup_setdefault_ne by exact Hne. lia.
Qed.

Lemma count_of_add_org_name d raw org :
  count_of (add_org_name d raw) org
  = count_of d org + (if listed org raw then 1 else 0).
Proof.
  unfold add_org_name, listed. destruct (truthy raw); simpl; [| lia].
  rewrite count_of_increment.
  destruct (decide (strip raw = org)) as [E | E].
  - rewrite bool_decide_eq_true_2; auto.
  - rewrite bool_decide_eq_false_2; auto.
Qed.

Lemma count_of_add_org_names raws d org :
  count_of (foldl add_org_name d raws) org
  = count_of d org + occurrences org raws.
Proof.
  revert d. induction raws as [| raw raws IH]; intros d; simpl; [lia |].
  rewrite IH, count_of_add_org_name. lia.
Qed.

(** The counter of an organisation grows by its occurrences on the
    activity, whatever the roles. *)
Lemma count_of_add_orgs a d org :
  count_of (add_orgs a d) org = count_of d org + org_occurrences a org.
Proof.
  unfold add_orgs, org_occurrences.
  rewrite (foldl_flat_map add_org_name (get_list (orgs a))).
  apply count_of_add_org_names.
Qed.

End Counters.

Section Sectors.

Implicit Types (d : gmap (list N) (gmap (list N) nat)).

Lemma add_sector_names_keeps type raws d k :
  is_Some (d !! k) -> is_Some (foldl (add_sector_name type) d raws !! k).
Proof.
  revert d. induction raws as [| raw raws IH]; intros d H; simpl; [auto |].
  apply IH. unfold add_sector_name. destruct (truthy raw); simpl; [| auto].
  rewrite lookup_insert. destruct (decide (type = k)); eauto.
Qed.

Lemma add_sectors_keys a types d k :
  k ∈ types \/ is_Some (d !! k) ->
  is_Some
    (foldl (fun d type =>
              let d := setdefault type ∅ d in
              foldl (add_sector_name type) d (get_list (sectors a) type))
       d types !! k).
Proof.
  revert d. induction types as [| type types IH]; intros d H; simpl.
  - destruct H as [H | H]; [inversion H | exact H].
  - apply IH. destruct (decide (k = type)) as [-> | Hne].
    + right. apply add_sector_names_keeps.
      rewrite lookup_setdefault_eq. eauto.
    + destruct H as [H | H].
      * apply elem_of_cons in H as [H | H]; [contradiction | auto].
      * right. apply add_sector_names_keeps.
        rewrite lookup_setdefault_ne; auto.
Qed.

(** After the sector loop, every sector type is a key. *)
Lemma add_sectors_all_types a d type :
  type ∈ SECTOR_TYPES -> is_Some (add_sectors a d !! type).
Proof. intros H. apply add_sectors_keys. auto. Qed.

End Sectors.

Section ByLocationType.

Implicit Types (index : gmap (list N) (gmap (list N) index_entry)).
Implicit Types (of_type : gmap (list N) index_entry).

Lemma add_location_by_type a loctype index of_type raw :
  index !! loctype = Some of_type ->
  add_location a loctype index raw
  = <[loctype := add_location_of_type a of_type raw]> index.
Proof.
  intros H. unfold add_location, add_location_of_type.
  destruct (truthy raw); simpl; [| symmetry; apply insert_id, H].
  rewrite (lookup_total_correct _ _ _ H). f_equal.
  rewrite (lookup_total_correct _ _ _
             (lookup_setdefault_eq (strip raw) new_entry of_type)).
  apply insert_setdefault.
Qed.

Lemma add_locations_by_type a loctype raws index of_type :
  index !! loctype = Some of_type ->
  foldl (add_location a loctype) index raws
  = <[loctype := foldl (add_location_of_type a) of_type raws]> index.
Proof.
  revert index of_type.
  induction raws as [| raw raws IH]; intros index of_type H; simpl.
  - symmetry. apply insert_id, H.
  - rewrite (add_location_by_type _ _ _ _ _ H).
    erewrite IH by apply lookup_insert_eq. apply insert_insert_eq.
Qed.

(** The loop over the location types writes, under each type, what the
    loop over the locations of that type makes of the map found there. *)
Lemma lookup_add_activity_types a types index loctype :
  NoDup types ->
  foldl (fun index loctype =>
           let index := setdefault loctype ∅ index in
           foldl (add_location a loctype) index
             (get_list (locations a) loctype))
    index types !! loctype
  = if decide (loctype ∈ types)
    then Some (add_activity_of_type loctype (default ∅ (index !! loctype)) a)
    else index !! loctype.
Proof.
  intros ND. revert index.
  induction ND as [| t types Ht ND IH]; intros index.
  - case_decide as Hin; [inversion Hin | reflexivity].
  - cbn [foldl]. rewrite IH. cbv zeta.
    rewrite (add_locations_by_type _ _ _ _ _ (lookup_setdefault_eq t ∅ index)).
    rewrite insert_setdefault.
    destruct (decide (loctype = t)) as [-> | Hne].
    + rewrite lookup_insert_eq.
      destruct (decide (t ∈ types)) as [Hin | _]; [contradiction |].
      destruct (decide (t ∈ t :: types)) as [_ | Hn]; [reflexivity |].
      exfalso. apply Hn. left.
    + rewrite lookup_insert_ne by auto.
      destruct (decide (loctype ∈ types)) as [Hin | Hin];
        destruct (decide (loctype ∈ t :: types)) as [Hin' | Hin'];
        try reflexivity.
      * exfalso. apply Hin'. right. exact Hin.
      * apply elem_of_cons in Hin' as [? | ?]; contradiction.
Qed.

Lemma LOCATION_TYPES_NoDup : NoDup LOCATION_TYPES.
Proof. apply (bool_decide_unpack _). vm_compute. exact I. Qed.

Lemma lookup_add_activity index a loctype :
  loctype ∈ LOCATION_TYPES ->
  add_activity index a !! loctype
  = Some (add_activity_of_type loctype (default ∅ (index !! loctype)) a).
Proof.
  intros H. unfold add_activity.
  rewrite (lookup_add_activity_types _ _ _ _ LOCATION_TYPES_NoDup).
  rewrite decide_True by exact H. reflexivity.
Qed.

Lemma lookup_add_activities activities index loctype :
  loctype ∈ LOCATION_TYPES ->
  foldl add_activity index activities !! loctype
  = match activities with
    | [] => index !! loctype
    | _ :: _ =>
        Some (foldl (add_activity_of_type loctype)
                (default ∅ (index !! loctype)) activities)
    end.
Proof.
  intros H. revert index.
  induction activities as [| a rest IH]; intros index; [reflexivity |].
  simpl. rewrite IH. destruct rest as [| b rest].
  - apply lookup_add_activity, H.
  - rewrite (lookup_add_activity _ _ _ H). reflexivity.
Qed.

(** With no activity the index is empty; with at least one, every location
    type is a key, and its map is [index_of_type]. *)
Lemma lookup_index_locations activities loctype :
  loctype ∈ LOCATION_TYPES ->
  index_locations activities !! loctype
  = match activities with
    | [] => None
    | _ :: _ => Some (index_of_type loctype activities)
    end.
Proof.
  intros H. unfold index_locations. rewrite (lookup_add_activities _ _ _ H).
  destruct activities; reflexivity.
Qed.

End ByLocationType.

Section Trimming.

Lemma dropwhile_app_all p a s :
  forallb p a = true -> dropwhile p (a ++ s) = dropwhile p s.
Proof.
  induction a as [| c a IH]; [reflexivity |]. simpl.
  intros [Hc Ha]%andb_true_iff. rewrite Hc. auto.
Qed.

Lemma forallb_rev (p : N -> bool) a :
  forallb p a = true -> forallb p (rev a) = true.
Proof.
  rewrite !forallb_forall. intros H c Hc. apply H, in_rev, Hc.
Qed.

(** [strip] is the only way to trim a string. *)
Lemma trimmed_strip raw key : trimmed raw key <-> key = strip raw.
Proof.
  split.
  - intros (a & b & -> & Ha & Hb & Hs & He).
    destruct key as [| c k].
    + simpl. symmetry. apply strip_blank. rewrite forallb_app, Ha, Hb.
      reflexivity.
    + unfold strip, lstrip, rstrip.
      rewrite (dropwhile_app_all _ _ _ Ha).
      rewrite (dropwhile_id isspace ((c :: k) ++ b)) by exact Hs.
      rewrite rev_app_distr, (dropwhile_app_all _ _ _ (forallb_rev _ _ Hb)).
      rewrite dropwhile_id; [symmetry; apply rev_involutive |].
      intros d. rewrite <- last_rev, rev_involutive. apply He.
  - intros ->. destruct (strip_split raw) as (a & b & E & Ha & Hb).
    destruct (strip_clean raw). exists a, b. auto.
Qed.

End Trimming.

Section Entries.

Implicit Types (of_type : gmap (list N) index_entry).

(** One turn of the location loop writes the entry of the trimmed string,
    and no other. *)
Lemma lookup_add_location_of_type a of_type raw location :
  add_location_of_type a of_type raw !! location
  = if listed location raw then Some (touch a (entry_of of_type location))
    else of_type !! location.
Proof.
  unfold add_location_of_type, listed, entry_of.
  destruct (truthy raw); simpl; [| reflexivity].
  rewrite lookup_insert. destruct (decide (strip raw = location)) as [E | E].
  - rewrite bool_decide_eq_true_2 by exact E. rewrite E. reflexivity.
  - rewrite bool_decide_eq_false_2 by exact E. reflexivity.
Qed.

Lemma add_locations_of_type_keys a raws of_type location :
  is_Some (foldl (add_location_of_type a) of_type raws !! location)
  <-> is_Some (of_type !! location)
      \/ exists raw, raw ∈ raws /\ listed location raw = true.
Proof.
  revert of_type. induction raws as [| raw raws IH]; intros of_type; simpl.
  - split; [auto | intros [H | (raw & H & _)]; [exact H | inversion H]].
  - rewrite IH, lookup_add_location_of_type. split.
    + intros [H | (r & Hr & L)].
      * destruct (listed location raw) eqn:L; [| auto].
        right. exists raw. split; [left | exact L].
      * right. exists r. split; [right; exact Hr | exact L].
    + intros [H | (r & Hr & L)].
      * left. destruct (listed location raw); eauto.
      * apply elem_of_cons in Hr as [-> | Hr].
        -- left. rewrite L. eauto.
        -- right. eauto.
Qed.

Lemma add_activities_of_type_keys loctype activities of_type location :
  is_Some (foldl (add_activity_of_type loctype) of_type activities
           !! location)
  <-> is_Some (of_type !! location)
      \/ exists a raw, a ∈ activities
                       /\ raw ∈ get_list (locations a) loctype
                       /\ listed location raw = true.
Proof.
  revert of_type.
  induction activities as [| a rest IH]; intros of_type; simpl.
  - split; [auto | intros [H | (a & raw & H & _)]; [exact H | inversion H]].
  - rewrite IH. unfold add_activity_of_type.
    rewrite add_locations_of_type_keys. split.
    + intros [[H | (raw & Hr & L)] | (b & raw & Hb & Hr & L)]; [auto | |].
      * right. exists a, raw. split; [left | auto].
      * right. exists b, raw. split; [right; exact Hb | auto].
    + intros [H | (b & raw & Hb & Hr & L)]; [auto |].
      apply elem_of_cons in Hb as [-> | Hb]; [left; right | right]; eauto.
Qed.

(** The keys of the map of a location type are the trimmed non-empty
    location strings of that type. *)
Lemma index_of_type_keys loctype activities location :
  is_Some (index_of_type loctype activities !! location)
  <-> exists a raw, a ∈ activities
                    /\ raw ∈ get_list (locations a) loctype
                    /\ listed location raw = true.
Proof.
  unfold index_of_type. rewrite add_activities_of_type_keys, lookup_empty.
  split; [intros [[x H] | H]; [discriminate | exact H] | auto].
Qed.

(** Every entry holds every sector type. *)
Lemma add_locations_of_type_sectors a raws of_type :
  (forall location entry type,
      of_type !! location = Some entry -> type ∈ SECTOR_TYPES ->
      is_Some (entry_sectors entry !! type)) ->
  forall location entry type,
    foldl (add_location_of_type a) of_type raws !! location = Some entry ->
    type ∈ SECTOR_TYPES -> is_Some (entry_sectors entry !! type).
Proof.
  revert of_type. induction raws as [| raw raws IH]; intros of_type H; simpl.
  - exact H.
  - apply IH. intros location entry type.
    rewrite lookup_add_location_of_type.
    destruct (listed location raw); [| apply H].
    intros [= <-] Ht. simpl. apply add_sectors_all_types, Ht.
Qed.

Lemma index_of_type_sectors loctype activities location entry type :
  index_of_type loctype activities !! location = Some entry ->
  type ∈ SECTOR_TYPES -> is_Some (entry_sectors entry !! type).
Proof.
  unfold index_of_type.
  assert (forall l e t, (∅ : gmap (list N) index_entry) !! l = Some e ->
                        t ∈ SECTOR_TYPES -> is_Some (entry_sectors e !! t))
    as H0 by (intros l e t; rewrite lookup_empty; discriminate).
  revert H0 location entry type.
  generalize (∅ : gmap (list N) index_entry).
  induction activities as [| a rest IH]; intros of_type H; simpl.
  - exact H.
  - apply IH. apply add_locations_of_type_sectors, H.
Qed.

End Entries.

Section OrgCounts.

Implicit Types (of_type : gmap (list N) index_entry).

Lemma org_count_add_location a of_type raw location org :
  count_of (entry_orgs (entry_of (add_location_of_type a of_type raw)
                          location)) org
  = count_of (entry_orgs (entry_of of_type location)) org
    + (if listed location raw then org_occurrences a org else 0).
Proof.
  unfold entry_of at 1. rewrite lookup_add_location_of_type.
  destruct (listed location raw); simpl.
  - apply count_of_add_orgs.
  - unfold entry_of. lia.
Qed.

Lemma org_count_add_locations a raws of_type location org :
  count_of (entry_orgs (entry_of (foldl (add_location_of_type a) of_type raws)
                          location)) org
  = count_of (entry_orgs (entry_of of_type location)) org
    + occurrences location raws * org_occurrences a org.
Proof.
  revert of_type. induction raws as [| raw raws IH]; intros of_type; simpl.
  - lia.
  - rewrite IH, org_count_add_location.
    destruct (listed location raw); lia.
Qed.

Lemma org_count_add_activities loctype activities of_type location org :
  count_of (entry_orgs
              (entry_of (foldl (add_activity_of_type loctype) of_type
                           activities) location)) org
  = count_of (entry_orgs (entry_of of_type location)) org
    + expected_org_count loctype location org activities.
Proof.
  revert of_type.
  induction activities as [| a rest IH]; intros of_type; simpl.
  - lia.
  - rewrite IH. unfold add_activity_of_type.
    rewrite org_count_add_locations. unfold location_occurrences. lia.
Qed.

(** The counter of an organisation at a location: for each activity, its
    occurrences on the activity times the number of times the activity
    lists the location. *)
Lemma org_counter_index_locations activities loctype location org :
  loctype ∈ LOCATION_TYPES ->
  default 0 (org_counter (index_locations activities) loctype location org)
  = expected_org_count loctype location org activities.
Proof.
  intros H. unfold org_counter, index_entry_at.
  rewrite (lookup_index_locations _ _ H).
  destruct activities as [| a rest]; [reflexivity |].
  pose proof (org_count_add_activities loctype (a :: rest) ∅ location org)
    as E.
  assert (count_of (entry_orgs (entry_of ∅ location)) org = 0) as Z.
  { unfold entry_of, count_of. rewrite lookup_empty. simpl.
    rewrite lookup_empty. reflexivity. }
  rewrite Z in E. cbn [Nat.add] in E. rewrite <- E.
  unfold index_of_type, entry_of, count_of. cbn [mbind option_bind].
  destruct (foldl (add_activity_of_type loctype) ∅ (a :: rest) !! location);
    [reflexivity |].
  simpl. rewrite lookup_empty. reflexivity.
Qed.

(** C8 as stated fails: an activity that lists the location twice counts
    its organisations twice. *)
Lemma org_counts_listed_twice : ~ org_counts_add_up.
Proof.
  intros H.
  specialize (H kabul_twice kabul_once (lit "admin1") (lit "Kabul")
                (lit "Oxfam")).
  vm_compute in H.
  assert (Some 3 = Some 2) as E; [| discriminate E].
  apply H; repeat constructor.
Qed.

(** C8, amended: for two activities that both list a location of a type
    and both list an organisation, the counter of the organisation in the
    entry of the location is the sum, over the two activities, of the
    occurrences of the organisation on the activity (all roles together)
    times the number of location strings of the activity that trim to the
    location. *)
Theorem org_counter_two_activities (a b : activity)
  (loctype location org : list N) :
  loctype ∈ LOCATION_TYPES ->
  0 < location_occurrences a loctype location ->
  0 < location_occurrences b loctype location ->
  0 < org_occurrences a org -> 0 < org_occurrences b org ->
  org_counter (index_locations [a; b]) loctype location org
  = Some (location_occurrences a loctype location * org_occurrences a org
          + location_occurrences b loctype location * org_occurrences b org).
Proof.
  intros H La Lb Oa Ob.
  pose proof (org_counter_index_locations [a; b] loctype location org H) as E.
  simpl in E.
  destruct (org_counter (index_locations [a; b]) loctype location org)
    as [n |]; simpl in E.
  - f_equal. lia.
  - nia.
Qed.

Lemma org_counter_two_activities_witness :
  org_counter (index_locations [kabul_twice; kabul_once])
    (lit "admin1") (lit "Kabul") (lit "Oxfam")
  = Some (location_occurrences kabul_twice (lit "admin1") (lit "Kabul")
          * org_occurrences kabul_twice (lit "Oxfam")
          + location_occurrences kabul_once (lit "admin1") (lit "Kabul")
            * org_occurrences kabul_once (lit "Oxfam")).
Proof.
  apply org_counter_two_activities.
  - left.
  - vm_compute. lia.
  - vm_compute. lia.
  - vm_compute. lia.
  - vm_compute. lia.
Defined.

(** When each of the two activities lists the location once, the counter
    is the sum of the occurrences of the organisation. *)
Corollary org_counter_listed_once a b loctype location org :
  loctype ∈ LOCATION_TYPES ->
  location_occurrences a loctype location = 1 ->
  location_occurrences b loctype location = 1 ->
  0 < org_occurrences a org -> 0 < org_occurrences b org ->
  org_counter (index_locations [a; b]) loctype location org
  = Some (org_occurrences a org + org_occurrences b org).
Proof.
  intros H La Lb Oa Ob.
  pose proof (org_counter_index_locations [a; b] loctype location org H) as E.
  simpl in E. rewrite La, Lb in E.
  destruct (org_counter (index_locations [a; b]) loctype location org)
    as [n |]; simpl in E; [f_equal |]; lia.
Qed.

Example oxfam_twice :
  org_counter (index_locations [kabul_once; kabul_once])
    (lit "admin1") (lit "Kabul") (lit "Oxfam") = Some 2.
Proof. vm_compute. reflexivity. Qed.

End OrgCounts.

Section IndexClaims.

(** C2 as stated fails: the location types are added inside the loop over
    the activities, so the index of an empty list has no key at all. *)
Lemma index_locations_nil_no_types :
  ~ (forall loctype, loctype ∈ LOCATION_TYPES ->
                     index_locations [] !! loctype = Some ∅).
Proof.
  intros H. specialize (H (lit "admin1")).
  discriminate H. left.
Qed.

Lemma add_locations_of_type_falsy a raws of_type :
  (forall raw, raw ∈ raws -> truthy raw = false) ->
  foldl (add_location_of_type a) of_type raws = of_type.
Proof.
  revert of_type. induction raws as [| raw raws IH]; intros of_type H; simpl.
  - reflexivity.
  - unfold add_location_of_type at 2. rewrite (H raw) by left. simpl.
    apply IH. intros r Hr. apply H. right. exact Hr.
Qed.

(** C2, amended: run on an empty list of activities, the index has no
    location type as a key; run on a list of at least one activity, none of
    which lists a non-empty location of a type of [LOCATION_TYPES], the
    index has that type as a key, mapped to an empty mapping. *)
Theorem index_locations_without_locations
  (activities : list activity) (loctype : list N) :
  loctype ∈ LOCATION_TYPES ->
  (forall a raw, a ∈ activities -> raw ∈ get_list (locations a) loctype ->
                 truthy raw = false) ->
  index_locations activities !! loctype
  = match activities with
    | [] => None
    | _ :: _ => Some ∅
    end.
Proof.
  intros H Hf. rewrite (lookup_index_locations _ _ H).
  destruct activities as [| a rest]; [reflexivity |]. f_equal.
  unfold index_of_type. revert Hf. generalize (a :: rest). clear a rest.
  intros l. generalize (∅ : gmap (list N) index_entry).
  induction l as [| a rest IH]; intros of_type Hf; simpl; [reflexivity |].
  unfold add_activity_of_type at 2.
  rewrite add_locations_of_type_falsy.
  - apply IH. intros b raw Hb. apply Hf. right. exact Hb.
  - intros raw. apply Hf. left.
Qed.

Lemma index_locations_without_locations_witness :
  index_locations [] !! lit "admin2" = None
  /\ index_locations [capital_city] !! lit "admin2" = Some ∅.
Proof.
  split.
  - apply (index_locations_without_locations [] (lit "admin2")).
    + right. left.
    + intros a raw Ha. inversion Ha.
  - apply (index_locations_without_locations [capital_city] (lit "admin2")).
    + right. left.
    + intros a raw Ha. apply list_elem_of_singleton in Ha as ->.
      vm_compute. intros Hr. inversion Hr.
Defined.

(** C3 fails on the code: a location made of spaces passes the test
    [not location], is trimmed to the empty string and gets an entry under
    the empty key; an organisation made of spaces gets a counter under the
    empty key in the same way. *)
Theorem blank_names_are_indexed :
  is_Some (index_entry_at (index_locations [blank_names]) (lit "admin1") [])
  /\ org_counter (index_locations [blank_names])
       (lit "admin1") (lit "Kabul") [] = Some 1.
Proof. split; [eexists |]; vm_compute; reflexivity. Qed.

(** The empty string itself is skipped, as a location and as an
    organisation. *)
Lemma empty_names_are_skipped a loctype index d :
  add_location a loctype index [] = index /\ add_org_name d [] = d.
Proof. split; reflexivity. Qed.

(** C9: the keys of the index under a location type are the non-empty
    location strings of that type on the activities, each without its
    leading and trailing whitespace, and otherwise as it is written. *)
Theorem index_keys_are_trimmed
  (activities : list activity) (loctype key : list N) :
  loctype ∈ LOCATION_TYPES ->
  (is_Some (index_entry_at (index_locations activities) loctype key)
   <-> exists a raw, a ∈ activities
                     /\ raw ∈ get_list (locations a) loctype
                     /\ truthy raw = true /\ trimmed raw key).
Proof.
  intros H. unfold index_entry_at. rewrite (lookup_index_locations _ _ H).
  assert ((exists a raw, a ∈ activities
                         /\ raw ∈ get_list (locations a) loctype
                         /\ truthy raw = true /\ trimmed raw key)
          <-> exists a raw, a ∈ activities
                            /\ raw ∈ get_list (locations a) loctype
                            /\ listed key raw = true) as ->.
  { unfold listed. split; intros (a & raw & Ha & Hr & L);
      exists a, raw; (split; [exact Ha |]); (split; [exact Hr |]).
    - destruct L as [T E%trimmed_strip]. rewrite T. simpl.
      apply bool_decide_eq_true_2. auto.
    - apply andb_true_iff in L as [T E%bool_decide_eq_true_1].
      split; [exact T |]. apply trimmed_strip. auto. }
  destruct activities as [| a rest].
  - simpl. split; [intros [x Hx]; discriminate |].
    intros (a & raw & Ha & _). inversion Ha.
  - simpl. apply index_of_type_keys.
Qed.

Lemma index_keys_are_trimmed_witness :
  is_Some (index_entry_at (index_locations [capital_city]) (lit "admin1")
             (lit "Capital  City")).
Proof.
  apply (index_keys_are_trimmed [capital_city] (lit "admin1")
           (lit "Capital  City")); [left |].
  exists capital_city, (lit "Capital  City ").
  split; [left |]. split; [vm_compute; left |]. split; [reflexivity |].
  apply trimmed_strip. reflexivity.
Defined.

(** The key of the specification's example, and no tokenised key. *)
Example capital_city_key :
  is_Some (index_entry_at (index_locations [capital_city]) (lit "admin1")
             (lit "Capital  City"))
  /\ index_entry_at (index_locations [capital_city]) (lit "admin1")
       (make_token (lit "Capital  City ")) = None.
Proof. split; [eexists |]; vm_compute; reflexivity. Qed.

(** C10: every entry of the index has every sector type as a key of its
    [sectors] mapping. *)
Theorem index_entries_have_all_sector_types
  (activities : list activity) (loctype location type : list N)
  (entry : index_entry) :
  index_entry_at (index_locations activities) loctype location = Some entry ->
  type ∈ SECTOR_TYPES ->
  is_Some (entry_sectors entry !! type).
Proof.
  unfold index_entry_at. intros He Ht.
  destruct (decide (loctype ∈ LOCATION_TYPES)) as [H | H].
  - rewrite (lookup_index_locations _ _ H) in He.
    destruct activities as [| a rest]; [discriminate |]. simpl in He.
    eapply index_of_type_sectors; eauto.
  - exfalso. revert He. unfold index_locations.
    assert ((∅ : gmap (list N) (gmap (list N) index_entry)) !! loctype = None)
      as H0 by apply lookup_empty.
    revert H0. generalize (∅ : gmap (list N) (gmap (list N) index_entry)).
    induction activities as [| a rest IH]; intros index H0; simpl.
    + rewrite H0. discriminate.
    + apply IH. unfold add_activity.
      rewrite (lookup_add_activity_types _ _ _ _ LOCATION_TYPES_NoDup).
      rewrite decide_False by exact H. exact H0.
Qed.

Lemma index_entries_have_all_sector_types_witness :
  is_Some (entry_sectors (touch kabul_once new_entry) !! lit "dac").
Proof.
  apply (index_entries_have_all_sector_types [kabul_once] (lit "admin1")
           (lit "Kabul") (lit "dac") (touch kabul_once new_entry)).
  - vm_compute. reflexivity.
  - left.
Defined.

End IndexClaims.

(** * The location table *)

Section Replay.

Implicit Types (table : gmap (list N) ref).

Lemma setdefault_tokens_replay names r table :
  setdefault_tokens names r table
  = foldl insert_token table (synonym_insertions names r).
Proof.
  unfold setdefault_tokens. revert table.
  induction names as [| name names IH]; intros table; simpl; auto.
Qed.

(** The loop over the sites: it fails at the first site if a name is
    missing, and otherwise stamps every site and makes the insertions of
    the sites in order. *)
Lemma sites_loop_eq i j name1 name2 k sites table :
  sites_loop i j name1 name2 k sites table
  = match sites, name1, name2 with
    | [], _, _ => inr ([], table)
    | _ :: _, Some n1, Some n2 =>
        inr (prod_map id (stamp_site n1 n2) <$> sites,
             foldl insert_token table (site_insertions i j k sites))
    | _ :: _, _, _ => inl (KeyError (lit "name"))
    end.
Proof.
  revert k table. induction sites as [| [name3 info3] rest IH];
    intros k table; [reflexivity |].
  destruct name1 as [n1 |], name2 as [n2 |]; try reflexivity.
  cbn [sites_loop getitem_name mbind result_bind]. rewrite IH.
  rewrite setdefault_tokens_replay. cbn [site_insertions foldl].
  rewrite foldl_app. destruct rest; reflexivity.
Qed.

Lemma districts_loop_eq i name1 j districts table :
  districts_loop i name1 j districts table
  = match districts, name1 with
    | [], _ => inr ([], table)
    | _ :: _, Some n1 =>
        if forallb district_named districts
        then inr (prod_map id (stamped_district n1) <$> districts,
                  foldl insert_token table
                    (district_insertions i j districts))
        else inl (KeyError (lit "name"))
    | _ :: _, None => inl (KeyError (lit "name"))
    end.
Proof.
  revert j table. induction districts as [| [name2 info2] rest IH];
    intros j table; [reflexivity |].
  destruct name1 as [n1 |]; [| reflexivity].
  cbn [districts_loop getitem_name mbind result_bind].
  rewrite sites_loop_eq. cbn [forallb]. unfold district_named at 1.
  cbn [snd stamp_district district_unclassified district_name].
  destruct (district_unclassified info2) as [| s sites] eqn:Es.
  - cbn [mbind result_bind andb]. rewrite IH, setdefault_tokens_replay.
    cbn [district_insertions foldl]. rewrite Es.
    cbn [site_insertions app]. rewrite foldl_app.
    cbn [fmap list_fmap prod_map fst snd id].
    unfold stamped_district at 2. rewrite Es.
    destruct rest as [| p rest']; [reflexivity |].
    destruct (forallb district_named (p :: rest')); reflexivity.
  - destruct (district_name info2) as [n2 |] eqn:En;
      [| rewrite bool_decide_eq_false_2 by (intros [? ?]; discriminate);
         reflexivity].
    rewrite bool_decide_eq_true_2 by eauto.
    cbn [mbind result_bind andb]. rewrite IH, setdefault_tokens_replay.
    cbn [district_insertions foldl]. rewrite Es, !foldl_app.
    cbn [fmap list_fmap prod_map fst snd id].
    unfold stamped_district at 2. rewrite Es, En.
    destruct rest as [| p rest']; [reflexivity |].
    destruct (forallb district_named (p :: rest')); reflexivity.
Qed.

Lemma regions_loop_eq i regions table :
  regions_loop i regions table
  = if forallb region_named regions
    then inr (stamped_map regions,
              foldl insert_token table (region_insertions i regions))
    else inl (KeyError (lit "name")).
Proof.
  revert i table. induction regions as [| [name1 info1] rest IH];
    intros i table; [reflexivity |].
  cbn [regions_loop mbind result_bind]. rewrite districts_loop_eq.
  cbn [forallb]. unfold region_named at 1. cbn [snd].
  unfold stamped_map. cbn [fmap list_fmap prod_map fst snd id].
  unfold stamped_region at 1.
  destruct (region_admin2 info1) as [| d districts] eqn:Ed.
  - cbn [mbind result_bind andb]. rewrite IH, setdefault_tokens_replay.
    cbn [region_insertions foldl]. rewrite Ed.
    cbn [district_insertions app]. rewrite foldl_app.
    destruct (forallb region_named rest); reflexivity.
  - destruct (region_name info1) as [n1 |] eqn:En;
      [| rewrite bool_decide_eq_false_2 by (intros [? ?]; discriminate);
         reflexivity].
    rewrite bool_decide_eq_true_2 by eauto. cbn [andb].
    destruct (forallb district_named (d :: districts)); [| reflexivity].
    cbn [mbind result_bind andb]. rewrite IH, setdefault_tokens_replay.
    cbn [region_insertions foldl]. rewrite Ed, !foldl_app.
    destruct (forallb region_named rest); reflexivity.
Qed.

(** The first call builds the table when every name is there, and raises
    [KeyError] otherwise. *)
Lemma get_location_lookup_table_eq st :
  location_lookup_table st = None ->
  get_location_lookup_table st
  = if all_named (location_map st)
    then let table := foldl insert_token ∅ (insertions (location_map st)) in
         inr (table,
              set_location_table (stamped_map (location_map st)) table st)
    else inl (KeyError (lit "name")).
Proof.
  intros H. unfold get_location_lookup_table. rewrite H, regions_loop_eq.
  unfold all_named. destruct (forallb region_named (location_map st));
    reflexivity.
Qed.

End Replay.

Section Resolution.

Implicit Types (table : gmap (list N) ref) (e : insertion).

Lemma lookup_insert_token_ne table e token :
  insertion_token e <> token -> insert_token table e !! token = table !! token.
Proof.
  destruct e as [[kind t] r]. unfold insertion_token. simpl. intros H.
  destruct kind; [apply lookup_insert_ne | apply lookup_setdefault_ne ..];
    exact H.
Qed.

(** Only the key of a region replaces an entry. *)
Lemma lookup_insert_token_keep table e token x :
  table !! token = Some x ->
  (fst (fst e) = RegionKey -> insertion_token e <> token) ->
  insert_token table e !! token = Some x.
Proof.
  destruct e as [[kind t] r]. unfold insertion_token. simpl. intros H Hk.
  destruct kind.
  - rewrite lookup_insert_ne; auto.
  - apply lookup_setdefault_Some, H.
  - apply lookup_setdefault_Some, H.
Qed.

Lemma replay_other_tokens events table token :
  Forall (fun e => insertion_token e <> token) events ->
  foldl insert_token table events !! token = table !! token.
Proof.
  intros F. revert table.
  induction F as [| e events He _ IH]; intros table; simpl; [reflexivity |].
  rewrite IH. apply lookup_insert_token_ne, He.
Qed.

Lemma replay_keeps events table token x :
  table !! token = Some x ->
  Forall (fun e => fst (fst e) = RegionKey -> insertion_token e <> token)
    events ->
  foldl insert_token table events !! token = Some x.
Proof.
  intros H F. revert table H.
  induction F as [| e events He _ IH]; intros table H; simpl; [exact H |].
  apply IH, lookup_insert_token_keep; assumption.
Qed.

(** The first insertion of a token stays, unless a region comes later
    whose key has the token. *)
Lemma replay_first_insertion pre kind token first post :
  Forall (fun e => insertion_token e <> token) pre ->
  Forall (fun e => fst (fst e) = RegionKey -> insertion_token e <> token)
    post ->
  foldl insert_token ∅ (pre ++ (kind, token, first) :: post) !! token
  = Some first.
Proof.
  intros Hpre Hpost. rewrite foldl_app. simpl.
  apply replay_keeps; [| exact Hpost].
  pose proof (replay_other_tokens pre ∅ token Hpre) as E.
  rewrite lookup_empty in E.
  destruct kind; simpl.
  - apply lookup_insert_eq.
  - rewrite lookup_setdefault_eq, E. reflexivity.
  - rewrite lookup_setdefault_eq, E. reflexivity.
Qed.

(** The last region whose key has a token has the token. *)
Lemma replay_last_region_key pre token r post :
  Forall (fun e => fst (fst e) = RegionKey -> insertion_token e <> token)
    post ->
  foldl insert_token ∅ (pre ++ (RegionKey, token, r) :: post) !! token
  = Some r.
Proof.
  intros Hpost. rewrite foldl_app. simpl.
  apply replay_keeps; [apply lookup_insert_eq | exact Hpost].
Qed.

(** What the table holds was inserted. *)
Lemma replay_values events table token r :
  foldl insert_token table events !! token = Some r ->
  table !! token = Some r \/ exists kind, (kind, token, r) ∈ events.
Proof.
  revert table. induction events as [| e events IH]; intros table; simpl.
  - auto.
  - intros H. apply IH in H as [H | [kind H]].
    + destruct e as [[kind t] x].
      destruct (decide (t = token)) as [-> | Hne].
      * assert (table !! token = Some r \/ x = r) as [? | ->];
          [| auto | right; exists kind; left].
        revert H. destruct kind; simpl.
        -- rewrite lookup_insert_eq. intros [= ->]. auto.
        -- rewrite lookup_setdefault_eq.
           destruct (table !! token); simpl; intros [= ->]; auto.
        -- rewrite lookup_setdefault_eq.
           destruct (table !! token); simpl; intros [= ->]; auto.
      * left. rewrite <- H. symmetry.
        apply (lookup_insert_token_ne table (kind, t, x)). exact Hne.
    + right. exists kind. right. exact H.
Qed.

End Resolution.

Section Resolvers.

(** The sample maps and the sample dataset are within the range of the
    character tables. *)
Lemma kabul_map_tabulated : tabulated_map kabul_map.
Proof.
  unfold tabulated_map, tabulated_region, tabulated_district,
    tabulated_site, tabulated_text.
  repeat (constructor || split); simpl; repeat constructor.
Qed.

Lemma north_map_tabulated : tabulated_map north_map.
Proof.
  unfold tabulated_map, tabulated_region, tabulated_district,
    tabulated_site, tabulated_text.
  repeat (constructor || split); simpl; repeat constructor.
Qed.

Lemma org_sample_tabulated : tabulated_orgs org_sample.
Proof.
  unfold tabulated_orgs, tabulated_org, tabulated_text.
  repeat (constructor || split); simpl;
    try (intros name [= <-]); repeat constructor.
Qed.

Lemma org_clash_tabulated : tabulated_orgs org_clash.
Proof.
  unfold tabulated_orgs, tabulated_org, tabulated_text.
  repeat (constructor || split); simpl;
    try (intros name [= <-]); repeat constructor.
Qed.

Lemma lookup_location_not_empty name loctype st table st' :
  is_empty (Some name) = false ->
  get_location_lookup_table st = inr (table, st') ->
  lookup_location (Some name) loctype st
  = inr (Some (default (Fallback loctype (normalise_string name))
                 (Found <$> table !! make_token name)), st').
Proof.
  intros He Ht. unfold lookup_location. rewrite He, Ht. reflexivity.
Qed.


(** C1 as stated fails: the key of a region is assigned, not set if
    absent.  In [north_map] the district ["north"] has the token of the
    region ["North"] declared before it, and the table resolves the token to
    the region ["NORTH"] declared after both. *)
Lemma later_region_key_wins : ~ earlier_entry_wins.
Proof.
  intros H.
  pose proof (get_location_lookup_table_eq (fresh_state [] north_map)
                eq_refl) as E.
  change (all_named (location_map (fresh_state [] north_map)))
    with true in E.
  cbv iota zeta in E.
  specialize (H (fresh_state [] north_map) _ _ [] []
                [(RegionKey, make_token (lit "NORTH"), RegionRef 1)]
                (make_token (lit "north")) (RegionRef 0) (DistrictRef 0 0)
                RegionKey eq_refl E eq_refl (Forall_nil_2 _)).
  vm_compute in H. discriminate H.
Qed.

(** C1, amended: the table is the result of the insertions in the order
    region key, then for each district its name, the names and synonyms of
    its sites, its synonyms, then the synonyms of the region; a name or a
    synonym whose token is there already is dropped, but the key of a region
    is assigned and replaces what is there.  So the first object inserted
    under a token is what the token resolves to, provided no region declared
    after it has a key with that token.  The keys and synonyms of the map
    and the names looked up are texts of code points up to U+017F. *)
Theorem first_entry_wins_unless_region_key
  (st st' : state) (table : gmap (list N) ref)
  (pre post : list insertion) (kind : insertion_kind)
  (token : list N) (first : ref) :
  location_lookup_table st = None ->
  tabulated_map (location_map st) ->
  get_location_lookup_table st = inr (table, st') ->
  insertions (location_map st) = pre ++ (kind, token, first) :: post ->
  Forall (fun e => insertion_token e <> token) pre ->
  Forall (fun e => fst (fst e) = RegionKey -> insertion_token e <> token)
    post ->
  table = foldl insert_token ∅ (insertions (location_map st))
  /\ table !! token = Some first
  /\ forall name loctype,
       tabulated_text name ->
       is_empty (Some name) = false -> make_token name = token ->
       lookup_location (Some name) loctype st = inr (Some (Found first), st').
Proof.
  intros Hfresh _ Hget Hins Hpre Hpost.
  pose proof Hget as E. rewrite (get_location_lookup_table_eq _ Hfresh) in E.
  destruct (all_named (location_map st)); [| discriminate].
  cbv zeta in E. injection E as Et Es.
  assert (table !! token = Some first) as Hl.
  { rewrite <- Et, Hins. apply replay_first_insertion; assumption. }
  split; [auto |]. split; [exact Hl |].
  intros name loctype _ Hne <-.
  rewrite (lookup_location_not_empty _ _ _ _ _ Hne Hget), Hl. reflexivity.
Qed.

Lemma first_entry_wins_unless_region_key_witness :
  lookup_location (Some (lit "kabul")) (lit "unclassified")
    (fresh_state [] kabul_map)
  = inr (Some (Found (RegionRef 0)),
         set_location_table (stamped_map kabul_map)
           (foldl insert_token ∅ (insertions kabul_map))
           (fresh_state [] kabul_map)).
Proof.
  eapply (first_entry_wins_unless_region_key (fresh_state [] kabul_map) _ _
            [] _ RegionKey (make_token (lit "Kabul")) (RegionRef 0)).
  - reflexivity.
  - apply kabul_map_tabulated.
  - rewrite get_location_lookup_table_eq by reflexivity. reflexivity.
  - reflexivity.
  - constructor.
  - vm_compute. repeat constructor; intros; discriminate.
  - unfold tabulated_text. repeat constructor.
  - reflexivity.
  - reflexivity.
Defined.



(** The blank names of the specification, and a miss. *)
Example lookup_location_blank st :
  lookup_location (Some []) (lit "unclassified") st = inr (None, st)
  /\ lookup_location None (lit "unclassified") st = inr (None, st)
  /\ lookup_location (Some (lit "   ")) (lit "unclassified") st
     = inr (None, st).
Proof. repeat split. Qed.

Example lookup_location_miss :
  match lookup_location (Some (lit " No  where ")) (lit "admin1")
          (fresh_state [] kabul_map) with
  | inr (value, _) =>
      value = Some (Fallback (lit "admin1") (Some (lit "No where")))
  | inl _ => False
  end.
Proof. vm_compute. reflexivity. Qed.

End Resolvers.

Section Organisations.


(** The table is built when the dataset can be loaded. *)
Lemma get_lookup_table_loads path st map :
  datasets st !! path = Some map ->
  exists table st', get_lookup_table path st = inr (table, st').
Proof.
  intros H. unfold get_lookup_table. rewrite H.
  destruct (lookup_tables_loaded st !! path); eauto.
Qed.



(** A blank name gives null, and nothing is written. *)
Lemma lookup_org_blank name st :
  is_empty name = true -> lookup_org name st = inr (None, st).
Proof.
  intros H. destruct name as [n |]; [| reflexivity].
  unfold lookup_org. rewrite H. reflexivity.
Qed.

Example lookup_org_miss :
  match lookup_org (Some (lit "Save the  Children"))
          (fresh_state org_sample []) with
  | inr (value, st) =>
      value = Some {| org_name := Some (lit "Save the Children");
                      org_scope := Some (lit "unknown");
                      org_synonyms := [];
                      org_other := [] |}
      /\ stderr st = [lit "Failed lookup |save the children|"]
  | inl _ => False
  end.
Proof. vm_compute. split; reflexivity. Qed.

Example lookup_org_synonym :
  match lookup_org (Some (lit " OXFAM-GB ")) (fresh_state org_sample []) with
  | inr (value, st) =>
      (org_name <$> value) = Some (Some (lit "Oxfam")) /\ stderr st = []
  | inl _ => False
  end.
Proof. vm_compute. split; reflexivity. Qed.

End Organisations.

Section Stamps.

Implicit Types (map : list (list N * region)).

Lemma get_region_stamped map i :
  get_region (stamped_map map) i = stamped_region <$> get_region map i.
Proof.
  unfold get_region, stamped_map. rewrite list_lookup_fmap.
  destruct (map !! i) as [[n r] |]; reflexivity.
Qed.

Lemma get_district_stamped map i j :
  get_district (stamped_map map) i j
  = r ← get_region map i;
    stamped_district (default [] (region_name r))
      <$> (snd <$> region_admin2 r !! j).
Proof.
  unfold get_district. rewrite get_region_stamped.
  destruct (get_region map i) as [r |]; [| reflexivity]. simpl.
  rewrite list_lookup_fmap.
  destruct (region_admin2 r !! j) as [[n d] |]; reflexivity.
Qed.

Lemma get_site_stamped map i j k :
  get_site (stamped_map map) i j k
  = r ← get_region map i;
    d ← snd <$> region_admin2 r !! j;
    stamp_site (default [] (region_name r)) (default [] (district_name d))
      <$> (snd <$> district_unclassified d !! k).
Proof.
  unfold get_site. rewrite get_district_stamped.
  destruct (get_region map i) as [r |]; [| reflexivity]. simpl.
  destruct (region_admin2 r !! j) as [[n d] |]; [| reflexivity]. simpl.
  rewrite list_lookup_fmap.
  destruct (district_unclassified d !! k) as [[m s] |]; reflexivity.
Qed.

Lemma region_named_lookup (item : list N * region) j x :
  region_named item = true -> region_admin2 (snd item) !! j = Some x ->
  is_Some (region_name (snd item)) /\ district_named x = true.
Proof.
  unfold region_named. intros H Hx.
  destruct (region_admin2 (snd item)) as [| d ds] eqn:E; [discriminate |].
  apply andb_true_iff in H as [Hn Hd]. split.
  - apply bool_decide_eq_true_1 in Hn. exact Hn.
  - rewrite forallb_forall in Hd. apply Hd.
    apply list_elem_of_In, list_elem_of_lookup. eauto.
Qed.

Lemma district_named_lookup (item : list N * district) k x :
  district_named item = true ->
  district_unclassified (snd item) !! k = Some x ->
  is_Some (district_name (snd item)).
Proof.
  unfold district_named. intros H Hx.
  destruct (district_unclassified (snd item)); [discriminate |].
  apply bool_decide_eq_true_1 in H. exact H.
Qed.

Lemma all_named_lookup map i item :
  all_named map = true -> map !! i = Some item -> region_named item = true.
Proof.
  unfold all_named. rewrite forallb_forall. intros H Hi. apply H.
  apply list_elem_of_In, list_elem_of_lookup. eauto.
Qed.

(** In the map that the loops leave, every district carries the name of its
    region. *)
Lemma stamped_map_districts map i j :
  all_named map = true ->
  is_Some (get_district (stamped_map map) i j) ->
  district_stamped (stamped_map map) i j.
Proof.
  intros Hn [d Hd]. unfold district_stamped.
  rewrite get_region_stamped. rewrite Hd.
  rewrite get_district_stamped in Hd. unfold get_region in *.
  destruct (map !! i) as [[n1 r] |] eqn:Hr; [| discriminate]. simpl in *.
  destruct (region_admin2 r !! j) as [[n2 d0] |] eqn:Hj; [| discriminate].
  simpl in Hd. injection Hd as <-.
  destruct (region_named_lookup (n1, r) j _ (all_named_lookup _ _ _ Hn Hr) Hj)
    as [[name Hname] _].
  simpl in Hname. exists (stamped_region r), (stamped_district
    (default [] (region_name r)) d0), name.
  rewrite Hname. simpl. auto.
Qed.

(** And every site the names of its region and of its district. *)
Lemma stamped_map_sites map i j k :
  all_named map = true ->
  is_Some (get_site (stamped_map map) i j k) ->
  site_stamped (stamped_map map) i j k.
Proof.
  intros Hn [s Hs]. unfold site_stamped.
  rewrite get_region_stamped, get_district_stamped. rewrite Hs.
  rewrite get_site_stamped in Hs. unfold get_region in *.
  destruct (map !! i) as [[n1 r] |] eqn:Hr; [| discriminate]. simpl in *.
  destruct (region_admin2 r !! j) as [[n2 d] |] eqn:Hj; [| discriminate].
  simpl in *.
  destruct (district_unclassified d !! k) as [[n3 s0] |] eqn:Hk;
    [| discriminate].
  simpl in Hs. injection Hs as <-.
  destruct (region_named_lookup (n1, r) j _ (all_named_lookup _ _ _ Hn Hr) Hj)
    as [[name1 Hname1] Hd].
  destruct (district_named_lookup (n2, d) k _ Hd Hk) as [name2 Hname2].
  simpl in Hname1, Hname2.
  exists (stamped_region r),
    (stamped_district (default [] (region_name r)) d),
    (stamp_site (default [] (region_name r)) (default [] (district_name d))
       s0),
    name1, name2.
  rewrite Hname1, Hname2. simpl. auto 10.
Qed.

End Stamps.

Section References.

Lemma synonym_insertions_ref names r (e : insertion) :
  e ∈ synonym_insertions names r -> snd e = r.
Proof.
  unfold synonym_insertions. rewrite list_elem_of_In, in_map_iff.
  intros (name & <- & _). reflexivity.
Qed.

Lemma site_insertions_refs i j (done sites : list (list N * site))
  (e : insertion) :
  e ∈ site_insertions i j (List.length done) sites ->
  exists k, snd e = SiteRef i j k /\ is_Some ((done ++ sites) !! k).
Proof.
  revert done. induction sites as [| [name3 info3] rest IH]; intros done.
  - intros H. inversion H.
  - cbn [site_insertions]. rewrite elem_of_cons, elem_of_app.
    intros [-> | [H | H]].
    + exists (List.length done). split; [reflexivity |].
      rewrite list_lookup_middle; eauto.
    + exists (List.length done). split; [eapply synonym_insertions_ref, H |].
      rewrite list_lookup_middle; eauto.
    + replace (S (List.length done)) with (List.length (done ++ [(name3, info3)])) in H
        by (rewrite length_app; simpl; lia).
      apply IH in H as (k & E & Hk). exists k. split; [exact E |].
      rewrite <- app_assoc in Hk. exact Hk.
Qed.

Lemma district_insertions_refs i (done districts : list (list N * district))
  (e : insertion) :
  e ∈ district_insertions i (List.length done) districts ->
  (exists j, snd e = DistrictRef i j
             /\ is_Some ((done ++ districts) !! j))
  \/ (exists j k item,
         snd e = SiteRef i j k /\ (done ++ districts) !! j = Some item
         /\ is_Some (district_unclassified (snd item) !! k)).
Proof.
  revert done. induction districts as [| [name2 info2] rest IH]; intros done.
  - intros H. inversion H.
  - cbn [district_insertions]. rewrite elem_of_cons, !elem_of_app.
    intros [-> | [H | [H | H]]].
    + left. exists (List.length done). split; [reflexivity |].
      rewrite list_lookup_middle; eauto.
    + right. apply (site_insertions_refs i (List.length done) []) in H
        as (k & E & Hk).
      exists (List.length done), k, (name2, info2).
      rewrite list_lookup_middle by reflexivity. auto.
    + left. exists (List.length done).
      split; [eapply synonym_insertions_ref, H |].
      rewrite list_lookup_middle; eauto.
    + replace (S (List.length done)) with (List.length (done ++ [(name2, info2)])) in H
        by (rewrite length_app; simpl; lia).
      apply IH in H. rewrite <- app_assoc in H. exact H.
Qed.

(** Every insertion points at an object of the location map. *)
Lemma region_insertions_refs (done regions : list (list N * region))
  (e : insertion) :
  e ∈ region_insertions (List.length done) regions ->
  is_Some (deref (done ++ regions) (snd e)).
Proof.
  revert done. induction regions as [| [name1 info1] rest IH]; intros done.
  - intros H. inversion H.
  - cbn [region_insertions]. rewrite elem_of_cons, !elem_of_app.
    assert ((done ++ (name1, info1) :: rest) !! List.length done
            = Some (name1, info1)) as Hi
      by (apply list_lookup_middle; reflexivity).
    intros [-> | [H | [H | H]]].
    + simpl. unfold get_region. rewrite Hi. simpl. eauto.
    + apply (district_insertions_refs (List.length done) []) in H
        as [(j & -> & [x Hj]) | (j & k & item & -> & Hj & [x Hk])];
        simpl in *; unfold get_site, get_district, get_region;
        rewrite Hi; simpl; rewrite Hj; simpl; [eauto |].
      rewrite Hk. simpl. eauto.
    + rewrite (synonym_insertions_ref _ _ _ H). simpl.
      unfold get_region. rewrite Hi. simpl. eauto.
    + replace (S (List.length done)) with (List.length (done ++ [(name1, info1)])) in H
        by (rewrite length_app; simpl; lia).
      apply IH in H. rewrite <- app_assoc in H. exact H.
Qed.

Lemma deref_stamped map r :
  is_Some (deref map r) -> is_Some (deref (stamped_map map) r).
Proof.
  destruct r as [i | i j | i j k]; simpl;
    rewrite ?get_region_stamped, ?get_district_stamped, ?get_site_stamped;
    unfold get_site, get_district; destruct (get_region map i) as [r |];
    simpl; try (intros [? ?]; discriminate); eauto.
  - destruct (region_admin2 r !! j) as [[n d] |]; simpl; eauto.
  - destruct (region_admin2 r !! j) as [[n d] |]; simpl;
      [| intros [? ?]; discriminate].
    destruct (district_unclassified d !! k) as [[m s] |]; simpl; eauto.
Qed.

End References.

Section Ancestors.

(** C7: once the table is built, every district that it points at, and
    every district of the location map, carries in [admin1] the name of its
    region; every site that it points at, and every site of the location
    map, carries in [admin1] and [admin2] the names of its region and of its
    district. *)
Theorem ancestors_are_stamped
  (st st' : state) (table : gmap (list N) ref) :
  location_lookup_table st = None ->
  get_location_lookup_table st = inr (table, st') ->
  (forall token i j,
      table !! token = Some (DistrictRef i j) ->
      district_stamped (location_map st') i j)
  /\ (forall token i j k,
        table !! token = Some (SiteRef i j k) ->
        site_stamped (location_map st') i j k)
  /\ (forall i j,
        is_Some (get_district (location_map st') i j) ->
        district_stamped (location_map st') i j)
  /\ (forall i j k,
        is_Some (get_site (location_map st') i j k) ->
        site_stamped (location_map st') i j k).
Proof.
  intros Hfresh Hget.
  rewrite (get_location_lookup_table_eq _ Hfresh) in Hget.
  destruct (all_named (location_map st)) eqn:Hn; [| discriminate].
  cbv zeta in Hget. injection Hget as <- <-. simpl.
  assert (forall token r,
             foldl insert_token ∅ (insertions (location_map st)) !! token
             = Some r ->
             is_Some (deref (stamped_map (location_map st)) r)) as Hv.
  { intros token r H. apply replay_values in H as [H | [kind H]].
    - rewrite lookup_empty in H. discriminate.
    - apply deref_stamped.
      apply (region_insertions_refs [] (location_map st)) in H. exact H. }
  repeat split.
  - intros token i j H. apply stamped_map_districts; [exact Hn |].
    apply Hv in H. simpl in H. apply fmap_is_Some in H. exact H.
  - intros token i j k H. apply stamped_map_sites; [exact Hn |].
    apply Hv in H. simpl in H. apply fmap_is_Some in H. exact H.
  - intros i j. apply stamped_map_districts, Hn.
  - intros i j k. apply stamped_map_sites, Hn.
Qed.

Lemma ancestors_are_stamped_witness :
  district_stamped (stamped_map kabul_map) 0 0
  /\ site_stamped (stamped_map kabul_map) 0 0 0.
Proof.
  pose proof (ancestors_are_stamped (fresh_state [] kabul_map)
                (set_location_table (stamped_map kabul_map)
                   (foldl insert_token ∅ (insertions kabul_map))
                   (fresh_state [] kabul_map))
                (foldl insert_token ∅ (insertions kabul_map))
                eq_refl) as H.
  destruct H as (Hd & Hs & _).
  - rewrite get_location_lookup_table_eq by reflexivity. reflexivity.
  - split.
    + apply (Hd (make_token (lit "Paghman"))). vm_compute. reflexivity.
    + apply (Hs (make_token (lit "Kabul Town"))). vm_compute. reflexivity.
Defined.

(** The entries of [kabul_map] after the build. *)
Example kabul_stamps :
  (district_admin1 <$> get_district (stamped_map kabul_map) 0 0)
  = Some (Some (lit "Kabul"))
  /\ (site_admin1 <$> get_site (stamped_map kabul_map) 0 0 0)
     = Some (Some (lit "Kabul"))
  /\ (site_admin2 <$> get_site (stamped_map kabul_map) 0 0 0)
     = Some (Some (lit "Kabul District")).
Proof. repeat split. Qed.

End Ancestors.

(** * Lists without duplicates *)

Section Flatten.

Lemma append_new_elem result s x :
  x ∈ append_new result s <-> x ∈ result \/ x = s.
Proof.
  unfold append_new. case_bool_decide as H.
  - split; [auto | intros [? | ->]; assumption].
  - rewrite elem_of_app, list_elem_of_singleton. reflexivity.
Qed.

Lemma append_new_NoDup result s : NoDup result -> NoDup (append_new result s).
Proof.
  intros ND. unfold append_new. case_bool_decide as H; [exact ND |].
  apply NoDup_app. repeat split; [exact ND | | apply NoDup_singleton].
  intros x Hx ->%list_elem_of_singleton. contradiction.
Qed.

Lemma append_all_elem values result x :
  x ∈ foldl append_new result values <-> x ∈ result \/ x ∈ values.
Proof.
  revert result. induction values as [| v values IH]; intros result; simpl.
  - split; [auto | intros [? | H]; [assumption | inversion H]].
  - rewrite IH, append_new_elem, elem_of_cons. tauto.
Qed.

Lemma append_all_NoDup values result :
  NoDup result -> NoDup (foldl append_new result values).
Proof.
  revert result. induction values as [| v values IH]; intros result ND; simpl.
  - exact ND.
  - apply IH, append_new_NoDup, ND.
Qed.

(** [flatten] returns each string of the lists of the keys that are not
    excluded, and no other, once. *)
Theorem flatten_spec (map : list (list N * list (list N)))
  (excludes : list (list N)) :
  NoDup (flatten map excludes)
  /\ forall x,
       x ∈ flatten map excludes
       <-> exists key values,
             (key, values) ∈ map /\ (key ∉ excludes) /\ x ∈ values.
Proof.
  unfold flatten.
  assert (forall result,
             NoDup result ->
             NoDup (foldl (fun result item =>
                             if bool_decide (fst item ∈ excludes) then result
                             else foldl append_new result (snd item))
                      result map)
             /\ forall x,
                  x ∈ foldl (fun result item =>
                               if bool_decide (fst item ∈ excludes)
                               then result
                               else foldl append_new result (snd item))
                        result map
                  <-> x ∈ result
                      \/ exists key values,
                           (key, values) ∈ map /\ (key ∉ excludes)
                           /\ x ∈ values) as G.
  { induction map as [| [key values] map IH]; intros result ND; simpl.
    - split; [exact ND |]. intros x. split; [auto |].
      intros [H | (k & v & H & _)]; [exact H | inversion H].
    - case_bool_decide as He.
      + destruct (IH result ND) as [IH1 IH2]. split; [exact IH1 |].
        intros x. rewrite IH2. split.
        * intros [H | (k & v & H1 & H2 & H3)]; [auto |].
          right. exists k, v. split; [right; exact H1 | auto].
        * intros [H | (k & v & H1 & H2 & H3)]; [auto |].
          apply elem_of_cons in H1 as [E | H1];
            [injection E as -> ->; contradiction |].
          right. exists k, v. auto.
      + destruct (IH _ (append_all_NoDup values result ND)) as [IH1 IH2].
        split; [exact IH1 |]. intros x. rewrite IH2, append_all_elem. split.
        * intros [[H | H] | (k & v & H1 & H2 & H3)]; [auto | |].
          -- right. exists key, values. split; [left | auto].
          -- right. exists k, v. split; [right; exact H1 | auto].
        * intros [H | (k & v & H1 & H2 & H3)]; [auto |].
          apply elem_of_cons in H1 as [E | H1];
            [injection E as -> ->; auto |].
          right. exists k, v. auto. }
  destruct (G [] (NoDup_nil_2)) as [G1 G2]. split; [exact G1 |].
  intros x. rewrite G2. split; [| auto].
  intros [H | H]; [inversion H | exact H].
Qed.

End Flatten.

Section AddUnique.

Lemma add_unique_cases element l :
  add_unique element l = l
  \/ exists e, element = Some e /\ is_empty (Some e) = false /\ (e ∉ l)
               /\ add_unique element l = l ++ [e].
Proof.
  destruct element as [e |]; [| auto]. unfold add_unique.
  destruct (truthy e); cbn [negb]; [| auto]. cbv zeta.
  destruct (is_empty (Some e)) eqn:He; cbn [negb andb]; [auto |].
  case_bool_decide as Hin; cbn [negb]; [auto |].
  right. exists e. split; [reflexivity |]. split; [exact He |].
  split; [exact Hin | reflexivity].
Qed.

Lemma add_unique_not_empty e l :
  is_empty (Some e) = false ->
  add_unique (Some e) l = if bool_decide (e ∈ l) then l else l ++ [e].
Proof.
  intros He. unfold add_unique.
  assert (truthy e = true) as Ht
    by (unfold is_empty in He; destruct (truthy e);
        [reflexivity | discriminate]).
  rewrite Ht. cbn [negb]. cbv zeta. rewrite He. cbn [negb andb].
  case_bool_decide; reflexivity.
Qed.

(** [add_unique] keeps a list of distinct non-blank strings such a list,
    and afterwards the list holds the element unless it is null or
    blank. *)
Theorem add_unique_keeps_distinct
  (element : option (list N)) (l : list (list N)) :
  NoDup l -> Forall (fun s => is_empty (Some s) = false) l ->
  NoDup (add_unique element l)
  /\ Forall (fun s => is_empty (Some s) = false) (add_unique element l)
  /\ (is_empty element = false ->
      exists e, element = Some e /\ e ∈ add_unique element l).
Proof.
  intros ND F. split; [| split].
  - destruct (add_unique_cases element l)
      as [E | (e & -> & He & Hin & E)]; rewrite E; [exact ND |].
    apply NoDup_app. repeat split; [exact ND | | apply NoDup_singleton].
    intros x Hx ->%list_elem_of_singleton. contradiction.
  - destruct (add_unique_cases element l)
      as [E | (e & -> & He & Hin & E)]; rewrite E; [exact F |].
    apply Forall_app. split; [exact F | repeat constructor; exact He].
  - destruct element as [e |]; [| discriminate]. intros He.
    exists e. split; [reflexivity |]. rewrite (add_unique_not_empty _ _ He).
    case_bool_decide as Hin; [exact Hin |]. apply elem_of_app. right. left.
Qed.

Lemma add_unique_keeps_distinct_witness :
  NoDup (add_unique (Some (lit "Oxfam")) [lit "CARE"])
  /\ Forall (fun s => is_empty (Some s) = false)
       (add_unique (Some (lit "Oxfam")) [lit "CARE"])
  /\ (is_empty (Some (lit "Oxfam")) = false ->
      exists e, Some (lit "Oxfam") = Some e
                /\ e ∈ add_unique (Some (lit "Oxfam")) [lit "CARE"]).
Proof.
  apply (add_unique_keeps_distinct (Some (lit "Oxfam")) [lit "CARE"]).
  - apply NoDup_singleton.
  - repeat constructor.
Defined.

(** Adding the same element again changes nothing. *)
Theorem add_unique_twice (element : option (list N)) (l : list (list N)) :
  add_unique element (add_unique element l) = add_unique element l.
Proof.
  destruct (add_unique_cases element l)
    as [E | (e & -> & He & Hin & E)]; rewrite E; [exact E |].
  rewrite (add_unique_not_empty _ _ He).
  rewrite bool_decide_eq_true_2; [reflexivity |].
  apply elem_of_app. right. left.
Qed.

(** With a key, a list whose objects differ in the text of the key member
    stays such a list, and an object without the member, or with a blank
    one, is never added. *)
Theorem add_unique_by_keeps_distinct (key : list N)
  (element : option (gmap (list N) (list N)))
  (l : list (gmap (list N) (list N))) :
  NoDup (key_text key <$> l) ->
  NoDup (key_text key <$> add_unique_by key element l)
  /\ forall x,
       x ∈ add_unique_by key element l ->
       x ∈ l \/ exists s, x !! key = Some s /\ is_empty (Some s) = false.
Proof.
  intros ND. destruct element as [e |]; [| simpl; auto].
  unfold add_unique_by. case_bool_decide as He; [auto |]. cbv zeta.
  destruct (e !! key) as [s |] eqn:Hs; [| auto].
  change (default [] (Some s)) with s.
  destruct (is_empty (Some s)) eqn:Hb; cbn [negb andb]; [auto |].
  case_bool_decide as Hin; cbn [negb]; [auto |]. split.
  - rewrite fmap_app. apply NoDup_app.
    repeat split; [exact ND | | apply NoDup_singleton].
    intros x Hx Hx'%list_elem_of_singleton. subst x.
    apply Hin. unfold key_text in Hx at 1. rewrite Hs in Hx. exact Hx.
  - intros x [Hx | ->%list_elem_of_singleton]%elem_of_app; eauto.
Qed.

Lemma add_unique_by_keeps_distinct_witness :
  NoDup (key_text (lit "name")
           <$> add_unique_by (lit "name") (Some (an_object "name" "Oxfam"))
                 [an_object "name" "CARE"]).
Proof.
  apply (add_unique_by_keeps_distinct (lit "name")
           (Some (an_object "name" "Oxfam")) [an_object "name" "CARE"]).
  apply NoDup_singleton.
Defined.

(** An object whose key member is the text ["None"] is taken for a
    duplicate of any object of the list that has no such member. *)
Theorem add_unique_by_none_text (key : list N)
  (e v : gmap (list N) (list N)) (l : list (gmap (list N) (list N))) :
  v ∈ l -> v !! key = None -> e !! key = Some (lit "None") ->
  add_unique_by key (Some e) l = l.
Proof.
  intros Hv Hk He. unfold add_unique_by.
  case_bool_decide; [reflexivity |]. rewrite He. cbv zeta.
  change (default [] (Some (lit "None"))) with (lit "None").
  rewrite bool_decide_eq_true_2; [rewrite andb_false_r; reflexivity |].
  apply list_elem_of_fmap. exists v. split; [| exact Hv].
  unfold key_text. rewrite Hk. reflexivity.
Qed.

Lemma add_unique_by_none_text_witness :
  add_unique_by (lit "name") (Some (an_object "name" "None"))
    [an_object "code" "X1"]
  = [an_object "code" "X1"].
Proof.
  apply (add_unique_by_none_text (lit "name") (an_object "name" "None")
           (an_object "code" "X1")).
  - left.
  - vm_compute. reflexivity.
  - vm_compute. reflexivity.
Defined.

End AddUnique.

(** * More on the text functions *)

Section Normalise.

Lemma sub_runs_from_head p b c s :
  p c = false -> sub_runs_from p b (c :: s) = c :: sub_runs_from p false s.
Proof. intros H. simpl. rewrite H. reflexivity. Qed.

Lemma sub_runs_from_last p b s c :
  last s = Some c -> p c = false -> last (sub_runs_from p b s) = Some c.
Proof.
  revert b. induction s as [| d s IH]; intros b Hl Hc; [discriminate |].
  destruct s as [| d' s'].
  - injection Hl as ->. simpl. rewrite Hc. reflexivity.
  - change (last (d :: d' :: s')) with (last (d' :: s')) in Hl.
    remember (d' :: s') as rest eqn:Hrest.
    assert (forall b', exists x y, sub_runs_from p b' rest = x :: y) as Hne.
    { intros b'. specialize (IH b' Hl Hc).
      destruct (sub_runs_from p b' rest); [discriminate | eauto]. }
    simpl. destruct (p d); [destruct b |].
    + apply IH; assumption.
    + destruct (Hne true) as (x & y & E).
      rewrite <- (IH true Hl Hc), E. reflexivity.
    + destruct (Hne false) as (x & y & E).
      rewrite <- (IH false Hl Hc), E. reflexivity.
Qed.

Lemma sub_runs_from_nil p b s : sub_runs_from p b s = [] -> Forall (fun c => p c = true) s.
Proof.
  revert b. induction s as [| c s IH]; intros b; [constructor |].
  simpl. destruct (p c) eqn:Hc; [| discriminate].
  destruct b; [| discriminate]. intros H. constructor; eauto.
Qed.

Lemma sub_runs_from_filter (p : N -> bool) b s :
  p space = true ->
  List.filter (fun c => negb (p c)) (sub_runs_from p b s)
  = List.filter (fun c => negb (p c)) s.
Proof.
  intros Hp. revert b. induction s as [| c s IH]; intros b; [reflexivity |].
  simpl. destruct (p c) eqn:Hc; simpl.
  - destruct b; simpl; rewrite ?Hp; simpl; apply IH.
  - rewrite Hc. simpl. f_equal. apply IH.
Qed.

Lemma filter_all_space (a : list N) :
  forallb isspace a = true ->
  List.filter (fun c => negb (isspace c)) a = [].
Proof.
  induction a as [| c a IH]; [reflexivity |]. simpl.
  intros [Hc Ha]%andb_true_iff. rewrite Hc. simpl. auto.
Qed.

Lemma normalise_string_is_clean (s r : list N) :
  normalise_string s = Some r ->
  starts_clean r /\ ends_clean r /\ single_spaced r
  /\ Forall (fun c => isspace c = true -> c = space) r.
Proof.
  unfold normalise_string. destruct (truthy s); [| discriminate]. simpl.
  intros [= <-]. destruct (strip_clean s) as [Cs Ce].
  set (t := strip s) in *. unfold sub_runs. repeat split.
  - intros c. destruct t as [| d t']; [discriminate |].
    pose proof (Cs d eq_refl) as Hd.
    rewrite (sub_runs_from_head isspace false d t' Hd). simpl.
    intros [= <-]. exact Hd.
  - intros c Hc. destruct (last t) as [d |] eqn:Hl.
    + pose proof (Ce d Hl) as Hd.
      rewrite (sub_runs_from_last isspace false t d Hl Hd) in Hc.
      injection Hc as <-. exact Hd.
    + apply last_None in Hl. rewrite Hl in Hc. discriminate.
  - apply (sub_runs_from_single isspace eq_refl false t).
  - pose proof (sub_runs_from_members isspace false t) as M.
    eapply Forall_impl; [exact M |]. simpl.
    intros c [-> | [Hc _]]; [reflexivity | congruence].
Qed.

(** The normalised string has no whitespace at its ends, and no whitespace
    inside other than single spaces. *)
Theorem normalise_string_shape (s r : list N) :
  normalise_string s = Some r ->
  starts_clean r /\ ends_clean r /\ single_spaced r
  /\ Forall (fun c => isspace c = true -> c = space) r.
Proof. apply normalise_string_is_clean. Qed.

Lemma normalise_string_shape_witness :
  starts_clean (lit "Save the Children")
  /\ ends_clean (lit "Save the Children")
  /\ single_spaced (lit "Save the Children")
  /\ Forall (fun c => isspace c = true -> c = space)
       (lit "Save the Children").
Proof.
  apply (normalise_string_shape (lit "  Save	the  Children ")).
  reflexivity.
Defined.

(** Normalising keeps the characters that are not whitespace, in their
    order: case and punctuation are as in the argument. *)
Theorem normalise_string_keeps_text (s r : list N) :
  normalise_string s = Some r ->
  List.filter (fun c => negb (isspace c)) r
  = List.filter (fun c => negb (isspace c)) s.
Proof.
  unfold normalise_string. destruct (truthy s); [| discriminate]. simpl.
  intros [= <-]. unfold sub_runs.
  rewrite (sub_runs_from_filter isspace false _ eq_refl).
  destruct (strip_split s) as (a & b & E & Ha & Hb).
  rewrite E at 2. rewrite !List.filter_app.
  rewrite (filter_all_space a Ha), (filter_all_space b Hb), app_nil_r.
  reflexivity.
Qed.

Lemma normalise_string_keeps_text_witness :
  List.filter (fun c => negb (isspace c)) (lit "M.S.F. (Holland)")
  = List.filter (fun c => negb (isspace c)) (lit " M.S.F.   (Holland) ").
Proof.
  apply (normalise_string_keeps_text (lit " M.S.F.   (Holland) ")).
  reflexivity.
Defined.

(** Null is the result for the empty string only: a string of whitespace
    is normalised to the empty string, which is not null. *)
Theorem normalise_string_null_or_empty (s : list N) :
  (normalise_string s = None <-> s = [])
  /\ (normalise_string s = Some [] <-> str_isspace s = true).
Proof.
  unfold normalise_string, str_isspace. destruct s as [| c s].
  - repeat split; discriminate.
  - cbn [truthy negb andb]. split; [split; discriminate |]. split.
    + intros [= H]. apply sub_runs_from_nil in H.
      destruct (strip_split (c :: s)) as (a & b & E & Ha & Hb).
      destruct (strip_clean (c :: s)) as [Cs _].
      destruct (strip (c :: s)) as [| d t].
      * rewrite E, !forallb_app, Ha, Hb. reflexivity.
      * inversion H as [| ? ? Hd _]. specialize (Cs d eq_refl). congruence.
    + intros H. f_equal. rewrite (strip_blank (c :: s) H). reflexivity.
Qed.

(** A normalised string that is not empty is normalised to itself. *)
Theorem normalise_string_fixed (s r : list N) :
  normalise_string s = Some r -> r <> [] -> normalise_string r = Some r.
Proof.
  intros H Hr.
  destruct (normalise_string_is_clean s r H) as (Cs & Ce & S & F).
  unfold normalise_string. destruct r as [| c r']; [contradiction |].
  simpl. f_equal. rewrite (strip_id _ Cs Ce).
  apply (sub_runs_from_fixed isspace eq_refl); [| exact S | discriminate].
  eapply Forall_impl; [exact F |]. simpl.
  intros d Hd. destruct (isspace d); auto.
Qed.

Lemma normalise_string_fixed_witness :
  normalise_string (lit "Save the Children")
  = Some (lit "Save the Children").
Proof.
  apply (normalise_string_fixed (lit "  Save	the  Children ")).
  - reflexivity.
  - discriminate.
Defined.

End Normalise.

Section TokenFacts.

Local Open Scope N_scope.

(** Below 128, lower case is one character, of the same class. *)
Lemma lower_char_ascii c :
  c < 128 -> exists d, lower_char c = [d] /\ nonword d = nonword c.
Proof.
  intros Hc.
  assert (c < 384) as Hc' by lia.
  pose proof (tabulated
    (fun c => implb (c <? 128)
                match lower_char c with
                | [d] => bool_decide (nonword d = nonword c)
                | _ => false
                end) eq_refl c Hc') as T.
  simpl in T. rewrite (proj2 (N.ltb_lt c 128) Hc) in T. simpl in T.
  destruct (lower_char c) as [| d [| ? ?]]; try discriminate.
  exists d. split; [reflexivity |]. apply bool_decide_eq_true_1 in T. exact T.
Qed.

(** A word character has a lower case that is not all whitespace. *)
Lemma lower_char_visible c :
  isword c = true -> exists d, In d (lower_char c) /\ isspace d = false.
Proof.
  intros H. destruct (N.lt_ge_cases c 384) as [Hc | Hc].
  - pose proof (tabulated
      (fun c => implb (isword c)
                  (existsb (fun d => negb (isspace d)) (lower_char c)))
      eq_refl c Hc) as T.
    simpl in T. rewrite H in T. simpl in T.
    apply existsb_exists in T as (d & Hd & Hs).
    exists d. split; [exact Hd |]. apply negb_true_iff. exact Hs.
  - rewrite isword_beyond in H by assumption. discriminate.
Qed.

Lemma sub_runs_from_lower b s :
  is_ascii s ->
  sub_runs_from nonword b (lower s) = lower (sub_runs_from nonword b s).
Proof.
  intros F. revert b. induction F as [| c s Hc _ IH]; intros b; [reflexivity |].
  destruct (lower_char_ascii c Hc) as (d & Hd & Hn).
  change (lower (c :: s)) with (lower_char c ++ lower s). rewrite Hd.
  cbn [app sub_runs_from]. rewrite Hn.
  destruct (nonword c); [destruct b |].
  - apply IH.
  - rewrite IH. reflexivity.
  - rewrite IH. change (lower (c :: sub_runs_from nonword false s))
      with (lower_char c ++ lower (sub_runs_from nonword false s)).
    rewrite Hd. reflexivity.
Qed.

Lemma sub_runs_from_keeps p b s c :
  In c s -> p c = false -> In c (sub_runs_from p b s).
Proof.
  revert b. induction s as [| d s IH]; intros b; [intros [] |].
  intros [-> | Hin] Hc; simpl.
  - rewrite Hc. left. reflexivity.
  - destruct (p d); [destruct b |]; simpl; auto.
Qed.

End TokenFacts.

Section TokenProperties.

Lemma make_token_lower_ascii (s : list N) :
  is_ascii s -> make_token (lower s) = make_token s.
Proof.
  intros H. unfold make_token, sub_runs.
  rewrite (sub_runs_from_lower false s H).
  rewrite (lower_fixed _ (lower_all_fixed _)). reflexivity.
Qed.

(** On ASCII strings the token does not depend on the case: the lower case
    of a string has the token of the string. *)
Theorem make_token_lower (s : list N) :
  is_ascii s -> make_token (lower s) = make_token s.
Proof. apply make_token_lower_ascii. Qed.

Lemma make_token_lower_witness :
  make_token (lower (lit "Save the CHILDREN"))
  = make_token (lit "Save the CHILDREN").
Proof.
  apply make_token_lower. unfold is_ascii. repeat constructor.
Defined.

(** The token of a string is empty exactly when the string has no word
    character (code points up to U+017F). *)
Theorem make_token_empty (s : list N) :
  Forall (fun c => (c < 384)%N) s ->
  make_token s = [] <-> Forall (fun c => nonword c = true) s.
Proof.
  intros _. unfold make_token, sub_runs. split.
  - intros E. apply List.Forall_forall. intros c Hc.
    destruct (nonword c) eqn:Hn; [reflexivity |]. exfalso.
    pose proof (sub_runs_from_keeps nonword false s c Hc Hn) as Hw.
    apply negb_false_iff in Hn.
    destruct (lower_char_visible c Hn) as (d & Hd & Hs).
    assert (In d (lower (sub_runs_from nonword false s))) as Hl
      by (apply in_flat_map; eauto).
    destruct (strip_split (lower (sub_runs_from nonword false s)))
      as (a & b & Es & Ha & Hb).
    rewrite E in Es. simpl in Es. rewrite Es in Hl.
    assert (forallb isspace (a ++ b) = true) as Hab
      by (rewrite forallb_app, Ha, Hb; reflexivity).
    rewrite forallb_forall in Hab. rewrite (Hab d Hl) in Hs. discriminate.
  - intros F. apply strip_blank.
    pose proof (sub_runs_from_members nonword false s) as M.
    assert (Forall (fun c => c = space) (sub_runs_from nonword false s)) as S.
    { rewrite List.Forall_forall in *. intros c Hc.
      destruct (M c Hc) as [-> | [Hn Hin]]; [reflexivity |].
      rewrite (F c Hin) in Hn. discriminate. }
    rewrite lower_fixed.
    + apply forallb_forall. rewrite List.Forall_forall in S.
      intros c Hc. rewrite (S c Hc). reflexivity.
    + eapply Forall_impl; [exact S |]. simpl. intros c ->. reflexivity.
Qed.

Lemma make_token_empty_witness :
  make_token (lit " -- (?) ") = []
  <-> Forall (fun c => nonword c = true) (lit " -- (?) ").
Proof.
  apply make_token_empty. repeat constructor.
Defined.

End TokenProperties.

(** * More on the lookup table of a flat dataset *)

Section FlatTable.

Context {V : Type}.
Implicit Types (d : gmap (list N) V) (names : list (list N)).

Lemma lookup_setdefault_tokens names (info : V) d token :
  setdefault_tokens names info d !! token
  = match d !! token with
    | Some x => Some x
    | None =>
        if bool_decide (token ∈ make_token <$> names) then Some info else None
    end.
Proof.
  unfold setdefault_tokens. revert d.
  induction names as [| name names IH]; intros d; simpl.
  - destruct (d !! token); reflexivity.
  - rewrite IH, lookup_setdefault.
    destruct (decide (make_token name = token)) as [<- | Hne].
    + destruct (d !! make_token name); simpl; [reflexivity |].
      rewrite bool_decide_eq_true_2 by left. reflexivity.
    + destruct (d !! token); [reflexivity |].
      destruct (bool_decide (token ∈ make_token <$> names)) eqn:Hb.
      * apply bool_decide_eq_true_1 in Hb.
        rewrite bool_decide_eq_true_2 by (right; exact Hb). reflexivity.
      * apply bool_decide_eq_false_1 in Hb.
        rewrite bool_decide_eq_false_2; [reflexivity |].
        intros [? | ?]%elem_of_cons; [congruence | contradiction].
Qed.

End FlatTable.

Section OrgTable.

Implicit Types (table : gmap (list N) org_info).

(** One turn of the loop: the key is assigned; the name and the synonyms
    are set where the token is free. *)
Lemma lookup_add_org table key info token :
  add_org table (key, info) !! token
  = if decide (make_token key = token) then Some info
    else match table !! token with
         | Some x => Some x
         | None =>
             if bool_decide (token ∈ make_token <$> names_of info)
             then Some info else None
         end.
Proof.
  unfold add_org, names_of. rewrite lookup_setdefault_tokens.
  destruct (org_name info) as [name |].
  - rewrite lookup_setdefault, fmap_cons.
    generalize (make_token <$> org_synonyms info).
    generalize (make_token key) (make_token name). intros tk tn syns.
    destruct (decide (tk = token)) as [-> | Hk].
    + destruct (decide (tn = token)) as [-> | Hn].
      * rewrite lookup_insert_eq. reflexivity.
      * rewrite lookup_insert_eq. reflexivity.
    + destruct (decide (tn = token)) as [-> | Hn].
      * rewrite lookup_insert_ne by exact Hk.
        destruct (table !! token); simpl; [reflexivity |].
        rewrite bool_decide_eq_true_2 by left. reflexivity.
      * rewrite lookup_insert_ne by exact Hk.
        destruct (table !! token); [reflexivity |].
        destruct (bool_decide (token ∈ syns)) eqn:Hb.
        -- apply bool_decide_eq_true_1 in Hb.
           rewrite bool_decide_eq_true_2 by (right; exact Hb). reflexivity.
        -- apply bool_decide_eq_false_1 in Hb.
           rewrite bool_decide_eq_false_2; [reflexivity |].
           intros [? | ?]%elem_of_cons; [congruence | contradiction].
  - rewrite lookup_insert.
    destruct (decide (make_token key = token)); reflexivity.
Qed.

Lemma add_orgs_keep map table token x :
  table !! token = Some x ->
  Forall (fun item => make_token (fst item) <> token) map ->
  foldl add_org table map !! token = Some x.
Proof.
  intros H F. revert table H.
  induction F as [| [key info] map Hk _ IH]; intros table H; cbn [foldl].
  - exact H.
  - apply IH. rewrite lookup_add_org, decide_False by exact Hk.
    rewrite H. reflexivity.
Qed.

(** What the table holds under a token is an entry of the dataset that has
    the token, as that of its key, of its name or of a synonym. *)
Lemma add_orgs_values map table token info :
  foldl add_org table map !! token = Some info ->
  table !! token = Some info
  \/ exists key, (key, info) ∈ map
                 /\ (make_token key = token
                     \/ token ∈ make_token <$> names_of info).
Proof.
  revert table. induction map as [| [key i] map IH]; intros table;
    cbn [foldl].
  - auto.
  - intros H. apply IH in H as [H | (k & Hk & Ht)].
    + rewrite lookup_add_org in H.
      destruct (decide (make_token key = token)) as [E | E].
      * injection H as ->. right. exists key. split; [left | auto].
      * destruct (table !! token) as [x |]; [auto |].
        case_bool_decide as Hb; [| discriminate]. injection H as ->.
        right. exists key. split; [left | auto].
    + right. exists k. split; [right; exact Hk | exact Ht].
Qed.

(** Every key, name and synonym of the dataset has its token in the
    table. *)
Lemma add_orgs_covers map table token :
  is_Some (table !! token)
  \/ (exists key info, (key, info) ∈ map
                       /\ (make_token key = token
                           \/ token ∈ make_token <$> names_of info)) ->
  is_Some (foldl add_org table map !! token).
Proof.
  revert table. induction map as [| [key i] map IH]; intros table;
    cbn [foldl].
  - intros [H | (k & info & H & _)]; [exact H | inversion H].
  - intros H. apply IH. rewrite lookup_add_org.
    destruct (decide (make_token key = token)) as [E | E]; [eauto |].
    destruct (table !! token) as [x |] eqn:Hx; [eauto |].
    destruct H as [[x Hx'] | (k & info & Hin & Ht)]; [discriminate |].
    apply elem_of_cons in Hin as [Hin | Hin].
    + injection Hin as -> ->. destruct Ht as [Ht | Ht]; [contradiction |].
      left. rewrite bool_decide_eq_true_2 by exact Ht. eauto.
    + right. exists k, info. auto.
Qed.

End OrgTable.

Section OrgLookup.

Implicit Types (table : gmap (list N) org_info).

Lemma get_lookup_table_builds path st map :
  lookup_tables_loaded st !! path = None ->
  datasets st !! path = Some map ->
  get_lookup_table path st
  = inr (foldl add_org ∅ map,
         set_lookup_tables_loaded
           (<[path := foldl add_org ∅ map]> (lookup_tables_loaded st)) st).
Proof. intros H1 H2. unfold get_lookup_table. rewrite H1, H2. reflexivity. Qed.

(** The last entry whose key has a token has the token. *)
Lemma add_orgs_last_key map table token :
  Exists (fun item => make_token (fst item) = token) map ->
  exists key info,
    foldl add_org table map !! token = Some info
    /\ (key, info) ∈ map /\ make_token key = token.
Proof.
  revert table. induction map as [| [key i] map IH]; intros table H.
  - inversion H.
  - cbn [foldl].
    destruct (decide (Exists (fun item => make_token (fst item) = token) map))
      as [Hex | Hex].
    + destruct (IH (add_org table (key, i)) Hex) as (k & info & E & Hin & Hk).
      exists k, info. split; [exact E |]. split; [right; exact Hin | exact Hk].
    + apply Exists_cons in H as [H | H]; [| contradiction]. simpl in H.
      exists key, i. split; [| split; [left | exact H]].
      apply add_orgs_keep.
      * rewrite lookup_add_org, decide_True by exact H. reflexivity.
      * apply Forall_Exists_neg. exact Hex.
Qed.

(** The tokens of the table of a flat dataset are the tokens of the keys,
    names and synonyms of the dataset, and the entry under a token is an
    entry that has the token.  The keys, names and synonyms of the dataset
    are texts of code points up to U+017F. *)
Theorem get_lookup_table_tokens
  (path : list N) (st : state) (map : list (list N * org_info)) :
  lookup_tables_loaded st !! path = None ->
  datasets st !! path = Some map ->
  tabulated_orgs map ->
  exists table st',
    get_lookup_table path st = inr (table, st')
    /\ (forall token,
          is_Some (table !! token)
          <-> exists key info,
                (key, info) ∈ map
                /\ (make_token key = token
                    \/ token ∈ make_token <$> names_of info))
    /\ (forall token info,
          table !! token = Some info ->
          exists key,
            (key, info) ∈ map
            /\ (make_token key = token
                \/ token ∈ make_token <$> names_of info)).
Proof.
  intros H1 H2 _. eexists _, _.
  split; [apply (get_lookup_table_builds _ _ _ H1 H2) |].
  assert (forall token info,
             foldl add_org ∅ map !! token = Some info ->
             exists key,
               (key, info) ∈ map
               /\ (make_token key = token
                   \/ token ∈ make_token <$> names_of info)) as Hv.
  { intros token info H. apply add_orgs_values in H as [H | H]; [| exact H].
    rewrite lookup_empty in H. discriminate. }
  split; [| exact Hv]. intros token. split.
  - intros [info H]. destruct (Hv token info H) as (key & Hk). eauto.
  - intros H. apply add_orgs_covers. right. exact H.
Qed.

Lemma get_lookup_table_tokens_witness :
  exists table st',
    get_lookup_table org_map_path (fresh_state org_sample []) = inr (table, st')
    /\ (forall token,
          is_Some (table !! token)
          <-> exists key info,
                (key, info) ∈ org_sample
                /\ (make_token key = token
                    \/ token ∈ make_token <$> names_of info))
    /\ (forall token info,
          table !! token = Some info ->
          exists key,
            (key, info) ∈ org_sample
            /\ (make_token key = token
                \/ token ∈ make_token <$> names_of info)).
Proof.
  apply (get_lookup_table_tokens org_map_path (fresh_state org_sample [])
           org_sample).
  - reflexivity.
  - vm_compute. reflexivity.
  - apply org_sample_tabulated.
Defined.

(** The key of an entry resolves to the entry, whatever the names and
    synonyms of the other entries, unless a later key has its token.  The
    keys, names and synonyms of the dataset are texts of code points up to
    U+017F. *)
Theorem get_lookup_table_key_wins
  (path : list N) (st : state) (pre post : list (list N * org_info))
  (key : list N) (info : org_info) :
  lookup_tables_loaded st !! path = None ->
  datasets st !! path = Some (pre ++ (key, info) :: post) ->
  tabulated_orgs (pre ++ (key, info) :: post) ->
  Forall (fun item => make_token (fst item) <> make_token key) post ->
  exists table st',
    get_lookup_table path st = inr (table, st')
    /\ table !! make_token key = Some info.
Proof.
  intros H1 H2 _ F. eexists _, _.
  split; [apply (get_lookup_table_builds _ _ _ H1 H2) |].
  rewrite foldl_app. cbn [foldl]. apply add_orgs_keep; [| exact F].
  rewrite lookup_add_org, decide_True by reflexivity. reflexivity.
Qed.

(** A name or synonym resolves to the first entry that has it, when its
    token is the token of no key.  The keys, names and synonyms of the
    dataset are texts of code points up to U+017F. *)
Theorem get_lookup_table_first_name_wins
  (path : list N) (st : state) (pre post : list (list N * org_info))
  (key token : list N) (info : org_info) :
  lookup_tables_loaded st !! path = None ->
  datasets st !! path = Some (pre ++ (key, info) :: post) ->
  tabulated_orgs (pre ++ (key, info) :: post) ->
  token ∈ make_token <$> names_of info ->
  Forall (fun item => token ∉ make_token <$> names_of (snd item)) pre ->
  Forall (fun item => make_token (fst item) <> token)
    (pre ++ (key, info) :: post) ->
  exists table st',
    get_lookup_table path st = inr (table, st')
    /\ table !! token = Some info.
Proof.
  intros H1 H2 _ Hin Fpre Fkeys. eexists _, _.
  split; [apply (get_lookup_table_builds _ _ _ H1 H2) |].
  apply Forall_app in Fkeys as [Kpre Kpost].
  apply Forall_cons in Kpost as [Kkey Kpost]. simpl in Kkey.
  rewrite foldl_app. cbn [foldl]. apply add_orgs_keep; [| exact Kpost].
  rewrite lookup_add_org, decide_False by exact Kkey.
  destruct (foldl add_org ∅ pre !! token) as [x |] eqn:Hx.
  - exfalso. apply add_orgs_values in Hx as [Hx | (k & Hk & Ht)].
    + rewrite lookup_empty in Hx. discriminate.
    + rewrite List.Forall_forall in Fpre, Kpre.
      apply list_elem_of_In in Hk.
      destruct Ht as [Ht | Ht]; [exact (Kpre _ Hk Ht) | exact (Fpre _ Hk Ht)].
  - rewrite bool_decide_eq_true_2 by exact Hin. reflexivity.
Qed.

End OrgLookup.

Section OrgLookupUse.

Implicit Types (table : gmap (list N) org_info).

Lemma get_lookup_table_key_wins_witness :
  exists table st',
    get_lookup_table org_map_path (fresh_state org_clash []) = inr (table, st')
    /\ table !! make_token (lit "ogb") = Some (an_org "Oxfam GB" [lit "Oxfam Intl"]).
Proof.
  apply (get_lookup_table_key_wins org_map_path (fresh_state org_clash [])
           [(lit "oxfam", an_org "Oxfam" [lit "OGB"; lit "Oxfam Intl"])] []).
  - reflexivity.
  - vm_compute. reflexivity.
  - apply org_clash_tabulated.
  - constructor.
Defined.

Lemma get_lookup_table_first_name_wins_witness :
  exists table st',
    get_lookup_table org_map_path (fresh_state org_clash []) = inr (table, st')
    /\ table !! make_token (lit "Oxfam Intl")
       = Some (an_org "Oxfam" [lit "OGB"; lit "Oxfam Intl"]).
Proof.
  apply (get_lookup_table_first_name_wins org_map_path
           (fresh_state org_clash []) []
           [(lit "ogb", an_org "Oxfam GB" [lit "Oxfam Intl"])] (lit "oxfam")).
  - reflexivity.
  - vm_compute. reflexivity.
  - apply org_clash_tabulated.
  - vm_compute. right. right. left.
  - constructor.
  - repeat constructor; vm_compute; discriminate.
Defined.

(** Once the table of a path is built, it is what every later call
    returns, without a look at the dataset and without a change of
    state. *)
Theorem get_lookup_table_cached
  (path : list N) (st st' later : state) table :
  get_lookup_table path st = inr (table, st') ->
  lookup_tables_loaded later = lookup_tables_loaded st' ->
  get_lookup_table path later = inr (table, later).
Proof.
  intros H E. unfold get_lookup_table in *. rewrite E.
  destruct (lookup_tables_loaded st !! path) as [t |] eqn:Ht.
  - injection H as <- <-. rewrite Ht. reflexivity.
  - destruct (datasets st !! path); [| discriminate].
    injection H as <- <-. simpl. rewrite lookup_insert_eq. reflexivity.
Qed.

Lemma get_lookup_table_cached_witness :
  get_lookup_table org_map_path
    (set_lookup_tables_loaded
       {[ org_map_path := foldl add_org ∅ org_sample ]}
       (fresh_state org_clash []))
  = inr (foldl add_org ∅ org_sample,
         set_lookup_tables_loaded
           {[ org_map_path := foldl add_org ∅ org_sample ]}
           (fresh_state org_clash [])).
Proof.
  apply (get_lookup_table_cached org_map_path (fresh_state org_sample [])
           (set_lookup_tables_loaded
              {[ org_map_path := foldl add_org ∅ org_sample ]}
              (fresh_state org_sample []))).
  - vm_compute. reflexivity.
  - reflexivity.
Defined.

(** Every key of the organisation dataset that is not blank is found: the
    result is an entry of the dataset whose key has the same token, and
    nothing is written to the error stream.  The keys, names and synonyms
    of the dataset are texts of code points up to U+017F. *)
Theorem lookup_org_finds_keys
  (st : state) (map : list (list N * org_info)) (key : list N)
  (info : org_info) :
  lookup_tables_loaded st !! org_map_path = None ->
  datasets st !! org_map_path = Some map ->
  tabulated_orgs map ->
  (key, info) ∈ map -> is_empty (Some key) = false ->
  exists key' info' st',
    lookup_org (Some key) st = inr (Some info', st')
    /\ (key', info') ∈ map /\ make_token key' = make_token key
    /\ stderr st' = stderr st.
Proof.
  intros H1 H2 _ Hin He.
  pose proof (get_lookup_table_builds _ _ _ H1 H2) as Hg.
  destruct (add_orgs_last_key map ∅ (make_token key))
    as (k & i & E & Hk & Ht).
  { apply Exists_exists. exists (key, info). split; [exact Hin | reflexivity]. }
  exists k, i. eexists. unfold lookup_org. rewrite He, Hg.
  cbn [mbind result_bind]. rewrite E. auto.
Qed.

Lemma lookup_org_finds_keys_witness :
  exists key' info' st',
    lookup_org (Some (lit "ogb")) (fresh_state org_clash [])
    = inr (Some info', st')
    /\ (key', info') ∈ org_clash /\ make_token key' = make_token (lit "ogb")
    /\ stderr st' = stderr (fresh_state org_clash []).
Proof.
  apply (lookup_org_finds_keys (fresh_state org_clash []) org_clash
           (lit "ogb") (an_org "Oxfam GB" [lit "Oxfam Intl"])).
  - reflexivity.
  - vm_compute. reflexivity.
  - apply org_clash_tabulated.
  - right. left.
  - reflexivity.
Defined.

(** Two names with the same token that the table knows resolve alike:
    same entry, same state. *)
Lemma lookup_org_same_token
  (st st' : state) table (name1 name2 : list N) :
  is_empty (Some name1) = false -> is_empty (Some name2) = false ->
  make_token name1 = make_token name2 ->
  get_lookup_table org_map_path st = inr (table, st') ->
  is_Some (table !! make_token name1) ->
  lookup_org (Some name1) st = lookup_org (Some name2) st.
Proof.
  intros H1 H2 E Hg [info Hi]. unfold lookup_org.
  rewrite H1, H2, Hg. cbn [mbind result_bind]. rewrite <- E, Hi. reflexivity.
Qed.

Lemma lookup_org_same_token_witness :
  lookup_org (Some (lit " OXFAM-GB ")) (fresh_state org_sample [])
  = lookup_org (Some (lit "oxfam gb")) (fresh_state org_sample []).
Proof.
  apply (lookup_org_same_token (fresh_state org_sample [])
           (set_lookup_tables_loaded
              {[ org_map_path := foldl add_org ∅ org_sample ]}
              (fresh_state org_sample []))
           (foldl add_org ∅ org_sample)).
  - reflexivity.
  - reflexivity.
  - reflexivity.
  - vm_compute. reflexivity.
  - vm_compute. eexists. reflexivity.
Defined.

End OrgLookupUse.

(** * More on the location table *)

Section BuildFailure.

Lemma all_named_names_present map :
  all_named map = true <-> names_present map.
Proof.
  unfold names_present. split.
  - intros H i r Hr. unfold get_district. rewrite Hr. simpl.
    unfold get_region in Hr.
    destruct (map !! i) as [[n1 r0] |] eqn:Hi; [| discriminate].
    injection Hr as ->. pose proof (all_named_lookup _ _ _ H Hi) as Hn.
    split.
    + intros Hd. destruct (region_admin2 r) as [| x l] eqn:E;
        [contradiction |].
      apply (region_named_lookup (n1, r) 0 x Hn). simpl. rewrite E.
      reflexivity.
    + intros j d Hj Hs.
      destruct (region_admin2 r !! j) as [[n2 d0] |] eqn:Ej; [| discriminate].
      injection Hj as ->.
      destruct (region_named_lookup (n1, r) j _ Hn Ej) as [_ Hdn].
      destruct (district_unclassified d) as [| x l] eqn:E; [contradiction |].
      apply (district_named_lookup (n2, d) 0 x Hdn). simpl. rewrite E.
      reflexivity.
  - intros H. unfold all_named. apply forallb_forall. intros [n1 r] Hin.
    apply list_elem_of_In, list_elem_of_lookup in Hin as [i Hi].
    assert (get_region map i = Some r) as Hr
      by (unfold get_region; rewrite Hi; reflexivity).
    destruct (H i r Hr) as [Hn Hd]. unfold region_named. simpl.
    destruct (region_admin2 r) as [| x l] eqn:E; [reflexivity |].
    apply andb_true_iff. split.
    + apply bool_decide_eq_true_2, Hn. discriminate.
    + apply forallb_forall. intros [n2 d] Hin2.
      rewrite <- E in Hin2.
      apply list_elem_of_In, list_elem_of_lookup in Hin2 as [j Hj].
      unfold district_named. simpl.
      destruct (district_unclassified d) as [| y l'] eqn:E'; [reflexivity |].
      apply bool_decide_eq_true_2. apply (Hd j d).
      * unfold get_district. rewrite Hr. simpl. rewrite Hj. reflexivity.
      * rewrite E'. discriminate.
Qed.

(** The first call of [get_location_lookup_table] builds the table when
    every region that has a district has a name and every district that has
    a site has a name, and raises [KeyError] for ["name"] otherwise. *)
Theorem get_location_lookup_table_result (st : state) :
  location_lookup_table st = None ->
  (names_present (location_map st) ->
   exists table st', get_location_lookup_table st = inr (table, st'))
  /\ (~ names_present (location_map st) ->
      get_location_lookup_table st = inl (KeyError (lit "name"))).
Proof.
  intros H. rewrite (get_location_lookup_table_eq _ H).
  destruct (all_named (location_map st)) eqn:E.
  - split; [eauto |]. intros Hn. exfalso.
    apply Hn, all_named_names_present, E.
  - split; [| reflexivity]. intros Hn%all_named_names_present. congruence.
Qed.

Lemma get_location_lookup_table_result_witness :
  (exists table st',
      get_location_lookup_table (fresh_state [] kabul_map)
      = inr (table, st'))
  /\ get_location_lookup_table (fresh_state [] nameless_map)
     = inl (KeyError (lit "name")).
Proof.
  split.
  - apply (get_location_lookup_table_result (fresh_state [] kabul_map));
      [reflexivity |].
    apply all_named_names_present. reflexivity.
  - apply (get_location_lookup_table_result (fresh_state [] nameless_map));
      [reflexivity |].
    intros H%all_named_names_present. discriminate H.
Defined.

End BuildFailure.

Section RegionKeys.

Lemma synonym_insertions_kind names r :
  Forall (fun e : insertion => fst (fst e) <> RegionKey)
    (synonym_insertions names r).
Proof.
  unfold synonym_insertions. induction names; simpl; constructor;
    [discriminate | assumption].
Qed.

Lemma site_insertions_kind i j k sites :
  Forall (fun e : insertion => fst (fst e) <> RegionKey)
    (site_insertions i j k sites).
Proof.
  revert k. induction sites as [| [n s] rest IH]; intros k; simpl.
  - constructor.
  - constructor; [discriminate |].
    apply Forall_app. split; [apply synonym_insertions_kind | apply IH].
Qed.

Lemma district_insertions_kind i j districts :
  Forall (fun e : insertion => fst (fst e) <> RegionKey)
    (district_insertions i j districts).
Proof.
  revert j. induction districts as [| [n d] rest IH]; intros j; simpl.
  - constructor.
  - constructor; [discriminate |].
    rewrite !Forall_app.
    split; [apply site_insertions_kind |].
    split; [apply synonym_insertions_kind | apply IH].
Qed.

(** The only region keys among the insertions are the keys of the
    regions. *)
Lemma region_insertions_keys i regions token :
  Forall (fun item => make_token (fst item) <> token) regions ->
  Forall (fun e : insertion =>
            fst (fst e) = RegionKey -> insertion_token e <> token)
    (region_insertions i regions).
Proof.
  intros F. revert i. induction F as [| [n r] rest Hn _ IH]; intros i; simpl.
  - constructor.
  - constructor; [intros _; exact Hn |].
    rewrite !Forall_app. repeat split; [| | apply IH].
    + eapply Forall_impl; [apply district_insertions_kind |].
      simpl. intros e He Hk. contradiction.
    + eapply Forall_impl; [apply synonym_insertions_kind |].
      simpl. intros e He Hk. contradiction.
Qed.

Lemma region_insertions_app i pre post :
  region_insertions i (pre ++ post)
  = region_insertions i pre ++ region_insertions (i + List.length pre) post.
Proof.
  revert i. induction pre as [| [n r] pre IH]; intros i; simpl.
  - rewrite Nat.add_0_r. reflexivity.
  - rewrite IH, <- !app_assoc, Nat.add_succ_r. reflexivity.
Qed.

(** The key of a region resolves to the region, whatever the districts,
    sites and synonyms of the map, unless a later region has a key with the
    same token.  The keys and synonyms of the map are texts of code points
    up to U+017F. *)
Theorem region_key_resolves_to_region
  (st st' : state) (table : gmap (list N) ref)
  (pre post : list (list N * region)) (name1 : list N) (info1 : region) :
  location_lookup_table st = None ->
  tabulated_map (location_map st) ->
  get_location_lookup_table st = inr (table, st') ->
  location_map st = pre ++ (name1, info1) :: post ->
  Forall (fun item => make_token (fst item) <> make_token name1) post ->
  table !! make_token name1 = Some (RegionRef (List.length pre))
  /\ (region_name <$> get_region (location_map st') (List.length pre))
     = Some (region_name info1).
Proof.
  intros Hfresh _ Hget Hmap Hpost.
  rewrite (get_location_lookup_table_eq _ Hfresh) in Hget.
  destruct (all_named (location_map st)); [| discriminate].
  cbv zeta in Hget. injection Hget as <- <-. simpl. split.
  - unfold insertions. rewrite Hmap, region_insertions_app.
    cbn [region_insertions]. apply replay_last_region_key.
    rewrite !Forall_app. repeat split.
    + eapply Forall_impl; [apply district_insertions_kind |].
      simpl. intros e He Hk. contradiction.
    + eapply Forall_impl; [apply synonym_insertions_kind |].
      simpl. intros e He Hk. contradiction.
    + apply region_insertions_keys, Hpost.
  - rewrite get_region_stamped, Hmap. unfold get_region.
    rewrite list_lookup_middle by reflexivity. reflexivity.
Qed.

Lemma region_key_resolves_to_region_witness :
  foldl insert_token ∅ (insertions north_map) !! make_token (lit "NORTH")
  = Some (RegionRef 1)
  /\ (region_name <$> get_region (stamped_map north_map) 1)
     = Some (Some (lit "Upper North")).
Proof.
  apply (region_key_resolves_to_region (fresh_state [] north_map)
           (set_location_table (stamped_map north_map)
              (foldl insert_token ∅ (insertions north_map))
              (fresh_state [] north_map))
           (foldl insert_token ∅ (insertions north_map))
           [(lit "North",
             a_region "North" []
               [(lit "north", a_district "North District" [] [])])]
           [] (lit "NORTH") (a_region "Upper North" [] [])).
  - reflexivity.
  - apply north_map_tabulated.
  - rewrite get_location_lookup_table_eq by reflexivity. reflexivity.
  - reflexivity.
  - constructor.
Defined.

End RegionKeys.

Section Coverage.

Lemma replay_covers (events : list insertion)
  (table : gmap (list N) ref) token :
  is_Some (table !! token)
  \/ Exists (fun e => insertion_token e = token) events ->
  is_Some (foldl insert_token table events !! token).
Proof.
  revert table. induction events as [| e events IH]; intros table; simpl.
  - intros [H | H]; [exact H | inversion H].
  - intros H. apply IH.
    destruct (decide (insertion_token e = token)) as [E | E].
    + left. destruct e as [[kind t] r]. unfold insertion_token in E.
      simpl in E. subst t. destruct kind; simpl.
      * rewrite lookup_insert_eq. eauto.
      * rewrite lookup_setdefault_eq. eauto.
      * rewrite lookup_setdefault_eq. eauto.
    + destruct H as [H | H].
      * left. rewrite lookup_insert_token_ne by exact E. exact H.
      * apply Exists_cons in H as [H | H]; [contradiction | auto].
Qed.

(** Every region key, district name, site name and synonym of the
    location map has its token in the table, and what the table holds under
    a token is an object of the map as the build left it.  The keys and
    synonyms of the map are texts of code points up to U+017F. *)
Theorem location_table_covers_names
  (st st' : state) (table : gmap (list N) ref) :
  location_lookup_table st = None ->
  tabulated_map (location_map st) ->
  get_location_lookup_table st = inr (table, st') ->
  (forall e, e ∈ insertions (location_map st) ->
             is_Some (table !! insertion_token e))
  /\ (forall token r,
        table !! token = Some r ->
        is_Some (deref (location_map st') r)
        /\ exists kind, (kind, token, r) ∈ insertions (location_map st)).
Proof.
  intros Hfresh _ Hget.
  rewrite (get_location_lookup_table_eq _ Hfresh) in Hget.
  destruct (all_named (location_map st)); [| discriminate].
  cbv zeta in Hget. injection Hget as <- <-. simpl. split.
  - intros e He. apply replay_covers. right.
    apply Exists_exists. exists e. auto.
  - intros token r H. apply replay_values in H as [H | [kind H]].
    + rewrite lookup_empty in H. discriminate.
    + split; [| eauto]. apply deref_stamped.
      apply (region_insertions_refs [] (location_map st)) in H. exact H.
Qed.

Lemma location_table_covers_names_witness :
  is_Some (foldl insert_token ∅ (insertions kabul_map)
           !! insertion_token
                (Synonym, make_token (lit "Kabul Town"), SiteRef 0 0 0)).
Proof.
  pose proof (location_table_covers_names (fresh_state [] kabul_map)
                (set_location_table (stamped_map kabul_map)
                   (foldl insert_token ∅ (insertions kabul_map))
                   (fresh_state [] kabul_map))
                (foldl insert_token ∅ (insertions kabul_map)) eq_refl
                kabul_map_tabulated) as H.
  destruct H as [H _].
  - rewrite get_location_lookup_table_eq by reflexivity. reflexivity.
  - apply H. vm_compute. do 3 right. left.
Defined.

End Coverage.

Section BuildKeeps.

(** The build changes no name, no synonym and no other member of any
    object of the location map: only the stamps are written. *)
Theorem build_keeps_names
  (st st' : state) (table : gmap (list N) ref) (i j k : nat) :
  location_lookup_table st = None ->
  get_location_lookup_table st = inr (table, st') ->
  ((fun r => (region_name r, region_synonyms r, region_other r))
     <$> get_region (location_map st') i)
  = ((fun r => (region_name r, region_synonyms r, region_other r))
       <$> get_region (location_map st) i)
  /\ ((fun d => (district_name d, district_synonyms d, district_other d))
        <$> get_district (location_map st') i j)
     = ((fun d => (district_name d, district_synonyms d, district_other d))
          <$> get_district (location_map st) i j)
  /\ ((fun s => (site_name s, site_synonyms s, site_other s))
        <$> get_site (location_map st') i j k)
     = ((fun s => (site_name s, site_synonyms s, site_other s))
          <$> get_site (location_map st) i j k).
Proof.
  intros Hfresh Hget.
  rewrite (get_location_lookup_table_eq _ Hfresh) in Hget.
  destruct (all_named (location_map st)); [| discriminate].
  cbv zeta in Hget. injection Hget as <- <-. simpl.
  rewrite get_region_stamped, get_district_stamped, get_site_stamped.
  unfold get_site, get_district.
  destruct (get_region (location_map st) i) as [r |]; [| auto]. simpl.
  split; [reflexivity |].
  destruct (region_admin2 r !! j) as [[n d] |]; [| auto]. simpl.
  split; [reflexivity |].
  destruct (district_unclassified d !! k) as [[m s] |]; reflexivity.
Qed.

Lemma build_keeps_names_witness :
  ((fun s => (site_name s, site_synonyms s, site_other s))
     <$> get_site (stamped_map kabul_map) 0 0 0)
  = ((fun s => (site_name s, site_synonyms s, site_other s))
       <$> get_site kabul_map 0 0 0).
Proof.
  apply (build_keeps_names (fresh_state [] kabul_map)
           (set_location_table (stamped_map kabul_map)
              (foldl insert_token ∅ (insertions kabul_map))
              (fresh_state [] kabul_map))
           (foldl insert_token ∅ (insertions kabul_map)) 0 0 0).
  - reflexivity.
  - rewrite get_location_lookup_table_eq by reflexivity. reflexivity.
Defined.

Lemma get_location_lookup_table_again st table st' :
  get_location_lookup_table st = inr (table, st') ->
  get_location_lookup_table st' = inr (table, st').
Proof.
  unfold get_location_lookup_table.
  destruct (location_lookup_table st) as [t |] eqn:E.
  - intros [= <- <-]. rewrite E. reflexivity.
  - destruct (regions_loop 0 (location_map st) ∅) as [e | [m t]];
      [discriminate |].
    cbn [mbind result_bind]. intros [= <- <-]. reflexivity.
Qed.

(** The first lookup leaves a state in which the same lookup gives the same
    answer and changes nothing more: the table is built once, and the
    location map is stamped once.  The name, and the keys and synonyms of
    the map, are texts of code points up to U+017F. *)
Theorem lookup_location_again
  (name : option (list N)) (loctype : list N) (st st' : state)
  (value : option location_value) :
  location_lookup_table st = None ->
  tabulated_map (location_map st) ->
  (forall n, name = Some n -> tabulated_text n) ->
  lookup_location name loctype st = inr (value, st') ->
  lookup_location name loctype st' = inr (value, st').
Proof.
  intros _ _ _.
  unfold lookup_location. destruct name as [n |]; [| intros [= <- <-]; auto].
  destruct (is_empty (Some n)); [intros [= <- <-]; auto |].
  destruct (get_location_lookup_table st) as [e | [table st1]] eqn:E;
    [discriminate |].
  cbn [mbind result_bind]. intros [= <- <-].
  rewrite (get_location_lookup_table_again _ _ _ E). reflexivity.
Qed.

Lemma lookup_location_again_witness :
  lookup_location (Some (lit "Paghman")) (lit "admin2")
    (set_location_table (stamped_map kabul_map)
       (foldl insert_token ∅ (insertions kabul_map))
       (fresh_state [] kabul_map))
  = inr (Some (Found (DistrictRef 0 0)),
         set_location_table (stamped_map kabul_map)
           (foldl insert_token ∅ (insertions kabul_map))
           (fresh_state [] kabul_map)).
Proof.
  apply (lookup_location_again (Some (lit "Paghman")) (lit "admin2")
           (fresh_state [] kabul_map)).
  - reflexivity.
  - apply kabul_map_tabulated.
  - intros n [= <-]. unfold tabulated_text. repeat constructor.
  - unfold lookup_location.
    rewrite get_location_lookup_table_eq by reflexivity.
    vm_compute. reflexivity.
Defined.

End BuildKeeps.

Section IgnoreCase.

Local Open Scope N_scope.



End IgnoreCase.

Section IgnoreCaseLookups.





End IgnoreCaseLookups.

(** * More on the location index *)

Section Activities.

Implicit Types (of_type : gmap (list N) index_entry).

Lemma activities_add_location a of_type raw location :
  entry_activities (entry_of (add_location_of_type a of_type raw) location)
  = entry_activities (entry_of of_type location)
    ++ (if listed location raw then [summary a] else []).
Proof.
  unfold entry_of at 1. rewrite lookup_add_location_of_type.
  destruct (listed location raw); simpl; [reflexivity |].
  unfold entry_of. rewrite app_nil_r. reflexivity.
Qed.

Lemma activities_add_locations a raws of_type location :
  entry_activities
    (entry_of (foldl (add_location_of_type a) of_type raws) location)
  = entry_activities (entry_of of_type location)
    ++ replicate (occurrences location raws) (summary a).
Proof.
  revert of_type. induction raws as [| raw raws IH]; intros of_type; simpl.
  - rewrite app_nil_r. reflexivity.
  - rewrite IH, activities_add_location, <- app_assoc.
    destruct (listed location raw); reflexivity.
Qed.

Lemma activities_add_activities loctype activities of_type location :
  entry_activities
    (entry_of (foldl (add_activity_of_type loctype) of_type activities)
       location)
  = entry_activities (entry_of of_type location)
    ++ expected_activities loctype location activities.
Proof.
  revert of_type.
  induction activities as [| a rest IH]; intros of_type; simpl.
  - rewrite app_nil_r. reflexivity.
  - rewrite IH. unfold add_activity_of_type.
    rewrite activities_add_locations, <- app_assoc. reflexivity.
Qed.

(** The entry of a location lists the activities in their order, each as
    many times as it lists the location: nothing is left out and no
    duplicate is removed. *)
Theorem entry_activities_listed
  (activities : list activity) (loctype location : list N)
  (entry : index_entry) :
  loctype ∈ LOCATION_TYPES ->
  index_entry_at (index_locations activities) loctype location = Some entry ->
  entry_activities entry = expected_activities loctype location activities.
Proof.
  intros H He. unfold index_entry_at in He.
  rewrite (lookup_index_locations _ _ H) in He.
  destruct activities as [| a rest]; [discriminate |]. simpl in He.
  pose proof (activities_add_activities loctype (a :: rest) ∅ location) as E.
  fold (index_of_type loctype (a :: rest)) in E.
  unfold entry_of in E. rewrite He, lookup_empty in E. exact E.
Qed.

Lemma entry_activities_listed_witness :
  entry_activities
    (touch kabul_once (touch kabul_twice (touch kabul_twice new_entry)))
  = expected_activities (lit "admin1") (lit "Kabul")
      [kabul_twice; kabul_once].
Proof.
  apply (entry_activities_listed [kabul_twice; kabul_once] (lit "admin1")
           (lit "Kabul")).
  - left.
  - vm_compute. reflexivity.
Defined.

End Activities.

Section Positive.

Implicit Types (d : gmap (list N) nat).

Lemma increment_key name d k :
  is_Some (increment name d !! k) <-> k = name \/ is_Some (d !! k).
Proof.
  unfold increment. rewrite lookup_insert.
  destruct (decide (name = k)) as [-> | Hne].
  - split; eauto.
  - rewrite lookup_setdefault_ne by exact Hne.
    split; [auto | intros [-> | H]; [contradiction | exact H]].
Qed.

Lemma add_org_names_key raws d k :
  is_Some (foldl add_org_name d raws !! k)
  <-> is_Some (d !! k) \/ 0 < occurrences k raws.
Proof.
  revert d. induction raws as [| raw raws IH]; intros d; simpl.
  - split; [auto | intros [H | H]; [exact H | lia]].
  - rewrite IH. unfold add_org_name, listed.
    destruct (truthy raw); simpl.
    + rewrite increment_key. case_bool_decide as E.
      * split; [intros _; right; lia | intros _; left; left; auto].
      * split; [intros [[-> | H] | H]; [contradiction | auto | auto] |].
        intros [H | H]; auto.
    + reflexivity.
Qed.

(** A counter is there only for a name that occurs. *)
Lemma add_orgs_key a d org :
  is_Some (add_orgs a d !! org)
  <-> is_Some (d !! org) \/ 0 < org_occurrences a org.
Proof.
  unfold add_orgs, org_occurrences.
  rewrite (foldl_flat_map add_org_name (get_list (orgs a))).
  apply add_org_names_key.
Qed.

End Positive.

Section OrgCountersExact.

Implicit Types (of_type : gmap (list N) index_entry).

Lemma org_key_add_locations a raws of_type location org :
  (forall e, of_type !! location = Some e -> is_Some (entry_orgs e !! org) ->
             0 < count_of (entry_orgs e) org) ->
  forall e,
    foldl (add_location_of_type a) of_type raws !! location = Some e ->
    is_Some (entry_orgs e !! org) -> 0 < count_of (entry_orgs e) org.
Proof.
  revert of_type. induction raws as [| raw raws IH]; intros of_type H; simpl.
  - exact H.
  - apply IH. intros e. rewrite lookup_add_location_of_type.
    destruct (listed location raw); [| apply H].
    intros [= <-]. simpl. rewrite add_orgs_key, count_of_add_orgs.
    unfold entry_of. intros [Hs | Hs]; [| lia].
    destruct (of_type !! location) as [e0 |] eqn:E0; simpl in *.
    + pose proof (H e0 eq_refl Hs). lia.
    + rewrite lookup_empty in Hs. destruct Hs; discriminate.
Qed.

Lemma org_key_index_of_type loctype activities location org e :
  index_of_type loctype activities !! location = Some e ->
  is_Some (entry_orgs e !! org) -> 0 < count_of (entry_orgs e) org.
Proof.
  unfold index_of_type.
  assert (forall e, (∅ : gmap (list N) index_entry) !! location = Some e ->
                    is_Some (entry_orgs e !! org) ->
                    0 < count_of (entry_orgs e) org) as H0
    by (intros e0; rewrite lookup_empty; discriminate).
  revert H0 e. generalize (∅ : gmap (list N) index_entry).
  induction activities as [| a rest IH]; intros of_type H; simpl.
  - exact H.
  - apply IH. apply org_key_add_locations, H.
Qed.

(** An organisation has a counter in the entry of a location exactly when
    some activity lists both, and the counter is then the sum over the
    activities of the occurrences of the organisation times the occurrences
    of the location: no counter is zero. *)
Theorem org_counter_exact
  (activities : list activity) (loctype location org : list N) (n : nat) :
  loctype ∈ LOCATION_TYPES ->
  org_counter (index_locations activities) loctype location org = Some n
  <-> n = expected_org_count loctype location org activities /\ 0 < n.
Proof.
  intros H.
  pose proof (org_counter_index_locations activities loctype location org H)
    as E.
  split.
  - intros Hn. rewrite Hn in E. simpl in E. split; [exact E |].
    unfold org_counter, index_entry_at in Hn.
    rewrite (lookup_index_locations _ _ H) in Hn.
    destruct activities as [| a rest]; [discriminate |]. simpl in Hn.
    destruct (index_of_type loctype (a :: rest) !! location) as [e |] eqn:He;
      [| discriminate].
    simpl in Hn.
    pose proof (org_key_index_of_type _ _ _ org e He) as P.
    unfold count_of in P. rewrite Hn in P. simpl in P. apply P. eauto.
  - intros [-> Hpos].
    destruct (org_counter (index_locations activities) loctype location org)
      as [m |]; simpl in E; [congruence | lia].
Qed.

Lemma org_counter_exact_witness :
  org_counter (index_locations [health_activity]) (lit "admin2")
    (lit "Guzara") (lit "ECHO") = Some 2
  <-> 2 = expected_org_count (lit "admin2") (lit "Guzara") (lit "ECHO")
            [health_activity]
      /\ 0 < 2.
Proof.
  apply (org_counter_exact [health_activity]). right. left.
Defined.

End OrgCountersExact.

Section SectorCounters.

Implicit Types (d : gmap (list N) (gmap (list N) nat)).
Implicit Types (of_type : gmap (list N) index_entry).

Lemma add_sector_names_by_type (type : list N) (raws : list (list N)) d
  (m : gmap (list N) nat) :
  d !! type = Some m ->
  foldl (add_sector_name type) d raws
  = <[type := foldl add_org_name m raws]> d.
Proof.
  revert d m. induction raws as [| raw raws IH]; intros d m H; simpl.
  - symmetry. apply insert_id, H.
  - unfold add_sector_name at 2, add_org_name at 2.
    destruct (truthy raw); simpl.
    + rewrite (lookup_total_correct _ _ _ H).
      erewrite IH by apply lookup_insert_eq. apply insert_insert_eq.
    + apply IH, H.
Qed.

Lemma SECTOR_TYPES_NoDup : NoDup SECTOR_TYPES.
Proof. apply (bool_decide_unpack _). vm_compute. exact I. Qed.

(** The loop over the sector types writes, under each type, the counters
    of the sectors of that type, and touches no other key. *)
Lemma lookup_add_sectors_types a types d type :
  NoDup types ->
  foldl (fun d type =>
           let d := setdefault type ∅ d in
           foldl (add_sector_name type) d (get_list (sectors a) type))
    d types !! type
  = if decide (type ∈ types)
    then Some (foldl add_org_name (default ∅ (d !! type))
                 (get_list (sectors a) type))
    else d !! type.
Proof.
  intros ND. revert d.
  induction ND as [| t types Ht ND IH]; intros d.
  - case_decide as Hin; [inversion Hin | reflexivity].
  - cbn [foldl]. rewrite IH. cbv zeta.
    rewrite (add_sector_names_by_type _ _ _ _ (lookup_setdefault_eq t ∅ d)).
    rewrite insert_setdefault.
    destruct (decide (type = t)) as [-> | Hne].
    + rewrite lookup_insert_eq.
      destruct (decide (t ∈ types)) as [Hin | _]; [contradiction |].
      destruct (decide (t ∈ t :: types)) as [_ | Hn]; [reflexivity |].
      exfalso. apply Hn. left.
    + rewrite lookup_insert_ne by auto.
      destruct (decide (type ∈ types)) as [Hin | Hin];
        destruct (decide (type ∈ t :: types)) as [Hin' | Hin'];
        try reflexivity.
      * exfalso. apply Hin'. right. exact Hin.
      * apply elem_of_cons in Hin' as [? | ?]; contradiction.
Qed.

Lemma lookup_add_sectors a d type :
  add_sectors a d !! type
  = if decide (type ∈ SECTOR_TYPES)
    then Some (foldl add_org_name (default ∅ (d !! type))
                 (get_list (sectors a) type))
    else d !! type.
Proof. apply lookup_add_sectors_types, SECTOR_TYPES_NoDup. Qed.

Lemma sector_count_add_location a of_type raw location type sector :
  type ∈ SECTOR_TYPES ->
  count_of (default ∅ (entry_sectors
                         (entry_of (add_location_of_type a of_type raw)
                            location) !! type)) sector
  = count_of (default ∅ (entry_sectors (entry_of of_type location) !! type))
      sector
    + (if listed location raw then sector_occurrences a type sector else 0).
Proof.
  intros Ht. unfold entry_of at 1. rewrite lookup_add_location_of_type.
  destruct (listed location raw); simpl.
  - rewrite lookup_add_sectors, decide_True by exact Ht. simpl.
    apply count_of_add_org_names.
  - unfold entry_of. lia.
Qed.

Lemma sector_count_add_locations a raws of_type location type sector :
  type ∈ SECTOR_TYPES ->
  count_of (default ∅ (entry_sectors
                         (entry_of (foldl (add_location_of_type a) of_type
                                      raws) location) !! type)) sector
  = count_of (default ∅ (entry_sectors (entry_of of_type location) !! type))
      sector
    + occurrences location raws * sector_occurrences a type sector.
Proof.
  intros Ht. revert of_type.
  induction raws as [| raw raws IH]; intros of_type; simpl.
  - lia.
  - rewrite IH, (sector_count_add_location _ _ _ _ _ _ Ht).
    destruct (listed location raw); lia.
Qed.

Lemma sector_count_add_activities loctype activities of_type location
  type sector :
  type ∈ SECTOR_TYPES ->
  count_of (default ∅ (entry_sectors
                         (entry_of (foldl (add_activity_of_type loctype)
                                      of_type activities) location) !! type))
    sector
  = count_of (default ∅ (entry_sectors (entry_of of_type location) !! type))
      sector
    + expected_sector_count loctype location type sector activities.
Proof.
  intros Ht. revert of_type.
  induction activities as [| a rest IH]; intros of_type; simpl.
  - lia.
  - rewrite IH. unfold add_activity_of_type.
    rewrite (sector_count_add_locations _ _ _ _ _ _ Ht).
    unfold location_occurrences. lia.
Qed.

(** The counter of a sector of a recognised type in the entry of a
    location: for each activity, the occurrences of the sector under that
    type on the activity times the occurrences of the location; zero stands
    for a counter that is not there. *)
Theorem sector_counter_sum
  (activities : list activity) (loctype location type sector : list N) :
  loctype ∈ LOCATION_TYPES -> type ∈ SECTOR_TYPES ->
  default 0 (sector_counter (index_locations activities) loctype location
               type sector)
  = expected_sector_count loctype location type sector activities.
Proof.
  intros Hl Ht. unfold sector_counter, index_entry_at.
  rewrite (lookup_index_locations _ _ Hl).
  destruct activities as [| a rest]; [reflexivity |].
  pose proof (sector_count_add_activities loctype (a :: rest) ∅ location
                type sector Ht) as E.
  fold (index_of_type loctype (a :: rest)) in E.
  assert (count_of (default ∅ (entry_sectors (entry_of ∅ location) !! type))
            sector = 0) as Z.
  { unfold entry_of, count_of. rewrite lookup_empty. simpl.
    rewrite lookup_empty. simpl. rewrite lookup_empty. reflexivity. }
  rewrite Z in E. cbn [Nat.add] in E. rewrite <- E.
  unfold entry_of, count_of. cbn [mbind option_bind].
  destruct (index_of_type loctype (a :: rest) !! location) as [e |]; simpl.
  - destruct (entry_sectors e !! type); simpl; [reflexivity |].
    rewrite lookup_empty. reflexivity.
  - rewrite lookup_empty. simpl. rewrite lookup_empty. reflexivity.
Qed.

Lemma sector_counter_sum_witness :
  default 0 (sector_counter (index_locations [health_activity; health_activity])
               (lit "admin2") (lit "Injil") (lit "dac") (lit "Health"))
  = expected_sector_count (lit "admin2") (lit "Injil") (lit "dac")
      (lit "Health") [health_activity; health_activity].
Proof.
  apply sector_counter_sum; [right; left | left].
Defined.

Example health_sector_count :
  sector_counter (index_locations [health_activity; health_activity])
    (lit "admin2") (lit "Injil") (lit "dac") (lit "Health") = Some 4.
Proof. vm_compute. reflexivity. Qed.

End SectorCounters.

Section KeySets.

Implicit Types (of_type : gmap (list N) index_entry).

Lemma index_locations_other_types activities loctype :
  loctype ∉ LOCATION_TYPES -> index_locations activities !! loctype = None.
Proof.
  intros H. unfold index_locations.
  assert ((∅ : gmap (list N) (gmap (list N) index_entry)) !! loctype = None)
    as H0 by apply lookup_empty.
  revert H0. generalize (∅ : gmap (list N) (gmap (list N) index_entry)).
  induction activities as [| a rest IH]; intros index H0; simpl.
  - exact H0.
  - apply IH. unfold add_activity.
    rewrite (lookup_add_activity_types _ _ _ _ LOCATION_TYPES_NoDup).
    rewrite decide_False by exact H. exact H0.
Qed.

Lemma sector_keys_add_locations a raws of_type type :
  type ∉ SECTOR_TYPES ->
  (forall location e, of_type !! location = Some e ->
                      entry_sectors e !! type = None) ->
  forall location e,
    foldl (add_location_of_type a) of_type raws !! location = Some e ->
    entry_sectors e !! type = None.
Proof.
  intros Ht. revert of_type.
  induction raws as [| raw raws IH]; intros of_type H; simpl.
  - exact H.
  - apply IH. intros location e. rewrite lookup_add_location_of_type.
    destruct (listed location raw); [| apply H].
    intros [= <-]. simpl. rewrite lookup_add_sectors.
    rewrite decide_False by exact Ht. unfold entry_of.
    destruct (of_type !! location) as [e0 |] eqn:E0; simpl.
    + apply (H _ _ E0).
    + apply lookup_empty.
Qed.

Lemma sector_keys_index_of_type loctype activities type location e :
  type ∉ SECTOR_TYPES ->
  index_of_type loctype activities !! location = Some e ->
  entry_sectors e !! type = None.
Proof.
  intros Ht. unfold index_of_type.
  assert (forall l e0, (∅ : gmap (list N) index_entry) !! l = Some e0 ->
                       entry_sectors e0 !! type = None) as H0
    by (intros l e0; rewrite lookup_empty; discriminate).
  revert H0 location e. generalize (∅ : gmap (list N) index_entry).
  induction activities as [| a rest IH]; intros of_type H; simpl.
  - exact H.
  - apply IH. apply sector_keys_add_locations; assumption.
Qed.

(** The index has no key but the location types, and the sectors of an
    entry no key but the sector types: what an activity lists under any
    other type is left out. *)
Theorem index_has_known_keys_only
  (activities : list activity) (loctype location type : list N)
  (entry : index_entry) :
  (is_Some (index_locations activities !! loctype) ->
   loctype ∈ LOCATION_TYPES)
  /\ (index_entry_at (index_locations activities) loctype location
      = Some entry ->
      is_Some (entry_sectors entry !! type) -> type ∈ SECTOR_TYPES).
Proof.
  split.
  - intros [x Hx]. destruct (decide (loctype ∈ LOCATION_TYPES)) as [H | H];
      [exact H |].
    rewrite (index_locations_other_types _ _ H) in Hx. discriminate.
  - unfold index_entry_at. intros He [x Hx].
    destruct (decide (type ∈ SECTOR_TYPES)) as [Ht | Ht]; [exact Ht |].
    exfalso. destruct (decide (loctype ∈ LOCATION_TYPES)) as [H | H].
    + rewrite (lookup_index_locations _ _ H) in He.
      destruct activities as [| a rest]; [discriminate |]. simpl in He.
      rewrite (sector_keys_index_of_type _ _ _ _ _ Ht He) in Hx.
      discriminate.
    + rewrite (index_locations_other_types _ _ H) in He. discriminate.
Qed.

Lemma index_has_known_keys_only_witness :
  entry_sectors (touch health_activity new_entry) !! lit "other" = None.
Proof.
  destruct (entry_sectors (touch health_activity new_entry) !! lit "other")
    as [x |] eqn:E; [| reflexivity].
  exfalso.
  assert (lit "other" ∈ SECTOR_TYPES) as H.
  { apply (index_has_known_keys_only [health_activity] (lit "admin2")
             (lit "Injil") (lit "other") (touch health_activity new_entry)).
    - vm_compute. reflexivity.
    - rewrite E. eauto. }
  vm_compute in H.
  repeat (apply elem_of_cons in H as [H | H]; [discriminate H |]).
  inversion H.
Defined.

End KeySets.

(** * Location names in title case *)

Section TitleCase.

Local Open Scope N_scope.

Lemma title_char_beyond c : 384 <= c -> title_char c = [c].
Proof.
  intros H. unfold title_char, between.
  repeat match goal with
    | |- context [(?a <=? ?b)] =>
        first [ rewrite (proj2 (N.leb_le a b)) by lia
              | rewrite (proj2 (N.leb_gt a b)) by lia ]
    | |- context [(?a =? ?b)] => rewrite (proj2 (N.eqb_neq a b)) by lia
    end; simpl.
  reflexivity.
Qed.

(** Neither case mapping makes whitespace of a character that is not, and
    the title case of a character is never empty. *)
Lemma title_char_clean c :
  isspace c = false ->
  title_char c <> [] /\ Forall (fun d => isspace d = false) (title_char c).
Proof.
  intros H. destruct (N.lt_ge_cases c 384) as [Hc | Hc].
  - pose proof (tabulated
      (fun c => isspace c
                || (truthy (title_char c)
                    && forallb (fun d => negb (isspace d)) (title_char c)))
      eq_refl c Hc) as T.
    simpl in T. rewrite H in T. simpl in T.
    apply andb_true_iff in T as [T1 T2]. split.
    + intros E. rewrite E in T1. discriminate.
    + apply List.Forall_forall. rewrite forallb_forall in T2.
      intros d Hd. apply negb_true_iff, T2, Hd.
  - rewrite (title_char_beyond c Hc). split; [discriminate |].
    repeat constructor. exact H.
Qed.

Lemma lower_char_clean c :
  isspace c = false -> Forall (fun d => isspace d = false) (lower_char c).
Proof.
  intros H. destruct (N.lt_ge_cases c 384) as [Hc | Hc].
  - pose proof (tabulated
      (fun c => isspace c
                || forallb (fun d => negb (isspace d)) (lower_char c))
      eq_refl c Hc) as T.
    simpl in T. rewrite H in T. simpl in T.
    apply List.Forall_forall. rewrite forallb_forall in T.
    intros d Hd. apply negb_true_iff, T, Hd.
  - rewrite (lower_char_beyond c Hc). repeat constructor. exact H.
Qed.

End TitleCase.

Section Words.

Lemma lower_clean s :
  Forall (fun c => isspace c = false) s ->
  Forall (fun c => isspace c = false) (lower s).
Proof.
  induction 1 as [| c s Hc _ IH]; [constructor |].
  change (lower (c :: s)) with (lower_char c ++ lower s).
  apply Forall_app. split; [apply lower_char_clean, Hc | exact IH].
Qed.

Lemma capitalize_word w : is_word w -> is_word (capitalize w).
Proof.
  intros [Hne F]. destruct w as [| c rest]; [contradiction |].
  apply Forall_cons in F as [Hc F].
  destruct (title_char_clean c Hc) as [Tn Tf]. unfold capitalize. split.
  - destruct (title_char c); [contradiction | discriminate].
  - apply Forall_app. split; [exact Tf | apply lower_clean, F].
Qed.

Lemma split_from_words word s :
  Forall (fun c => isspace c = false) word ->
  Forall is_word (split_from word s).
Proof.
  revert word. induction s as [| c s IH]; intros word F; simpl.
  - destruct word as [| d word']; simpl; [constructor |].
    constructor; [split; [discriminate | exact F] | constructor].
  - destruct (isspace c) eqn:Hc.
    + destruct word as [| d word']; simpl; [apply IH; constructor |].
      constructor; [split; [discriminate | exact F] | apply IH; constructor].
    + apply IH. apply Forall_app. split; [exact F | repeat constructor].
      exact Hc.
Qed.

(** Reading no words means reading whitespace only. *)
Lemma split_from_nil word s :
  split_from word s = [] -> word = [] /\ forallb isspace s = true.
Proof.
  revert word. induction s as [| c s IH]; intros word; simpl.
  - destruct word; [auto | discriminate].
  - destruct (isspace c).
    + destruct word; simpl; [| discriminate].
      intros H. destruct (IH _ H). auto.
    + intros H. destruct (IH _ H) as [E _].
      destruct word; discriminate.
Qed.

Lemma join_nil words : Forall is_word words -> join words = [] -> words = [].
Proof.
  intros F. destruct F as [| w ws [Hw _] _]; [reflexivity |].
  destruct ws; simpl; [contradiction |].
  destruct w; [contradiction | discriminate].
Qed.

Lemma word_not_spaces w : is_word w -> Forall (fun c => c <> space) w.
Proof.
  intros [_ F]. eapply Forall_impl; [exact F |]. simpl.
  intros c Hc ->. discriminate.
Qed.

(** Words joined by single spaces: no whitespace at the ends, and none
    inside but single spaces. *)
Lemma join_clean words :
  Forall is_word words ->
  starts_clean (join words) /\ ends_clean (join words)
  /\ single_spaced (join words)
  /\ Forall (fun c => isspace c = true -> c = space) (join words).
Proof.
  induction 1 as [| w ws Hw F IH]; [repeat split; try discriminate;
                                     constructor |].
  assert (starts_clean w /\ ends_clean w /\ single_spaced w
          /\ Forall (fun c => isspace c = true -> c = space) w) as Cw.
  { destruct Hw as [Hne Fw]. rewrite List.Forall_forall in Fw.
    repeat split.
    - intros c Hc. apply Fw. destruct w; [discriminate |].
      injection Hc as ->. left. reflexivity.
    - intros c Hc. apply Fw. apply last_Some in Hc as [l ->].
      apply in_or_app. right. left. reflexivity.
    - rewrite <- (app_nil_r w). apply single_spaced_words; [| exact I].
      apply word_not_spaces. split; [exact Hne |].
      apply List.Forall_forall. exact Fw.
    - apply List.Forall_forall. intros c Hc Hs. rewrite (Fw c Hc) in Hs.
      discriminate. }
  destruct ws as [| w' ws']; [exact Cw |].
  change (join (w :: w' :: ws')) with (w ++ space :: join (w' :: ws')).
  destruct IH as (Is & Ie & Iss & If). destruct Cw as (Ws & We & Wss & Wf).
  assert (join (w' :: ws') <> []) as Hj.
  { intros E. apply (join_nil _ F) in E. discriminate. }
  repeat split.
  - intros c Hc. apply Ws. destruct w; [destruct Hw; contradiction |].
    exact Hc.
  - intros c Hc. apply Ie. rewrite last_app in Hc.
    destruct (join (w' :: ws')) as [| x l] eqn:E; [contradiction |].
    change (last (space :: x :: l)) with (last (x :: l)) in Hc.
    destruct (last (x :: l)) eqn:El; [exact Hc |].
    apply last_None in El. discriminate.
  - apply single_spaced_words; [apply word_not_spaces, Hw |].
    apply single_spaced_cons. split; [| exact Iss].
    intros _ Hh. pose proof (Is _ Hh) as Hs. discriminate.
  - apply Forall_app. split; [exact Wf |]. constructor; [auto | exact If].
Qed.

End Words.

Section FixLocationShape.

Lemma capwords_words s :
  exists words, capwords s = join words /\ Forall is_word words.
Proof.
  unfold capwords. exists (capitalize <$> split s). split; [reflexivity |].
  apply Forall_fmap. eapply Forall_impl.
  - apply (split_from_words [] s). constructor.
  - intros w Hw. apply capitalize_word, Hw.
Qed.

Lemma fix_location_words s :
  exists words, fix_location s = join words /\ Forall is_word words.
Proof.
  unfold fix_location. destruct (truthy s); [| exists []; split; constructor].
  destruct (normalise_string s); [apply capwords_words |].
  exists []. split; constructor.
Qed.

(** For a string of code points up to U+017F, [fix_location] gives words
    joined by single spaces: no whitespace at either end, and no whitespace
    inside but single spaces. *)
Theorem fix_location_shape (s : list N) :
  tabulated_text s ->
  (exists words, fix_location s = join words /\ Forall is_word words)
  /\ starts_clean (fix_location s) /\ ends_clean (fix_location s)
  /\ single_spaced (fix_location s)
  /\ Forall (fun c => isspace c = true -> c = space) (fix_location s).
Proof.
  intros _. split; [apply fix_location_words |].
  destruct (fix_location_words s) as (words & -> & F).
  apply join_clean, F.
Qed.

(** Among the strings of code points up to U+017F, [fix_location] gives the
    empty string, never null, for the empty string and for a string of
    whitespace, and for no other string. *)
Theorem fix_location_empty (s : list N) :
  tabulated_text s ->
  fix_location s = [] <-> is_empty (Some s) = true.
Proof.
  intros _.
  unfold fix_location, is_empty, normalise_string, str_isspace.
  destruct s as [| c s]; [split; reflexivity |].
  cbn [truthy negb orb andb]. split.
  - intros H. destruct (capwords_words (sub_runs isspace (strip (c :: s))))
      as (words & E & F).
    unfold capwords in H.
    assert (Forall is_word (capitalize <$>
              split (sub_runs isspace (strip (c :: s))))) as Fw.
    { apply Forall_fmap. eapply Forall_impl.
      - apply (split_from_words [] _). constructor.
      - intros w Hw. apply capitalize_word, Hw. }
    apply (join_nil _ Fw) in H. apply fmap_nil_inv in H.
    apply split_from_nil in H as [_ H].
    destruct (strip_split (c :: s)) as (a & b & Es & Ha & Hb).
    destruct (strip_clean (c :: s)) as [Cs _].
    destruct (strip (c :: s)) as [| d t].
    + rewrite Es, !forallb_app, Ha, Hb. reflexivity.
    + exfalso. specialize (Cs d eq_refl).
      unfold sub_runs in H.
      rewrite (sub_runs_from_head isspace false d t Cs) in H. simpl in H.
      rewrite Cs in H. discriminate.
  - intros H. rewrite (strip_blank _ H). reflexivity.
Qed.

End FixLocationShape.

Section FixLocationTwice.

Local Open Scope N_scope.

Lemma title_char_ascii c :
  c < 128 -> exists t, title_char c = [t] /\ title_char t = [t].
Proof.
  intros Hc.
  assert (c < 384) as Hc' by lia.
  pose proof (tabulated
    (fun c => implb (c <? 128)
                match title_char c with
                | [t] => bool_decide (title_char t = [t])
                | _ => false
                end) eq_refl c Hc') as T.
  simpl in T. rewrite (proj2 (N.ltb_lt c 128) Hc) in T. simpl in T.
  destruct (title_char c) as [| t [| ? ?]]; try discriminate.
  exists t. split; [reflexivity |]. apply bool_decide_eq_true_1 in T. exact T.
Qed.

Lemma capitalize_twice w :
  is_ascii w -> capitalize (capitalize w) = capitalize w.
Proof.
  intros F. destruct F as [| c rest Hc _]; [reflexivity |].
  destruct (title_char_ascii c Hc) as (t & Ht & Htt).
  unfold capitalize. rewrite Ht. simpl. rewrite Htt.
  rewrite (lower_fixed _ (lower_all_fixed rest)). reflexivity.
Qed.

Lemma split_from_ascii word s :
  is_ascii word -> is_ascii s -> Forall is_ascii (split_from word s).
Proof.
  intros Fw Fs. revert word Fw.
  induction Fs as [| c s Hc _ IH]; intros word Fw; simpl.
  - destruct (truthy word); repeat constructor. exact Fw.
  - destruct (isspace c).
    + destruct (truthy word); [constructor; [exact Fw |] |];
        apply IH; constructor.
    + apply IH. apply Forall_app. split; [exact Fw | repeat constructor].
      exact Hc.
Qed.

Lemma sub_runs_ascii p s : is_ascii s -> is_ascii (sub_runs p s).
Proof.
  intros F. unfold sub_runs, is_ascii in *.
  pose proof (sub_runs_from_members p false s) as M.
  rewrite List.Forall_forall in *. intros c Hc.
  destruct (M c Hc) as [-> | [_ Hin]]; [reflexivity | auto].
Qed.

Lemma strip_ascii s : is_ascii s -> is_ascii (strip s).
Proof.
  intros F. destruct (strip_split s) as (a & b & E & _). unfold is_ascii in *.
  rewrite E in F. apply Forall_app in F as [_ F].
  apply Forall_app in F as [F _]. exact F.
Qed.

End FixLocationTwice.

Section FixLocationFixed.

Lemma normalise_string_clean r :
  r <> [] -> starts_clean r -> ends_clean r -> single_spaced r ->
  Forall (fun c => isspace c = true -> c = space) r ->
  normalise_string r = Some r.
Proof.
  intros Hr Cs Ce S F. unfold normalise_string.
  destruct r as [| c r']; [contradiction |].
  simpl. f_equal. rewrite (strip_id _ Cs Ce).
  apply (sub_runs_from_fixed isspace eq_refl); [| exact S | discriminate].
  eapply Forall_impl; [exact F |]. simpl.
  intros d Hd. destruct (isspace d); auto.
Qed.

Lemma split_from_word word w s :
  Forall (fun c => isspace c = false) w ->
  split_from word (w ++ s) = split_from (word ++ w) s.
Proof.
  intros F. revert word. induction F as [| c w Hc _ IH]; intros word; simpl.
  - rewrite app_nil_r. reflexivity.
  - rewrite Hc, IH, <- app_assoc. reflexivity.
Qed.

(** Splitting the join of words gives the words back. *)
Lemma split_join words : Forall is_word words -> split (join words) = words.
Proof.
  unfold split. induction 1 as [| w ws [Hne Fw] F IH]; [reflexivity |].
  assert (truthy w = true) as Tw by (destruct w; [contradiction | reflexivity]).
  destruct ws as [| w' ws'].
  - simpl. rewrite <- (app_nil_r w) at 1.
    rewrite (split_from_word [] w [] Fw). simpl. rewrite Tw. reflexivity.
  - change (join (w :: w' :: ws')) with (w ++ space :: join (w' :: ws')).
    rewrite (split_from_word [] w _ Fw). cbn [app split_from].
    change (isspace space) with true. cbv iota. rewrite Tw, IH. reflexivity.
Qed.

(** On ASCII strings [fix_location] changes nothing in a string that it
    has made. *)
Theorem fix_location_twice (s : list N) :
  is_ascii s -> fix_location (fix_location s) = fix_location s.
Proof.
  intros Hs. unfold fix_location at 2 3.
  destruct (truthy s); [| reflexivity].
  unfold normalise_string. destruct (truthy s); [| reflexivity]. simpl.
  set (t := sub_runs isspace (strip s)).
  assert (is_ascii t) as Ht by apply sub_runs_ascii, strip_ascii, Hs.
  unfold capwords.
  assert (Forall is_word (split t)) as Fw
    by (apply (split_from_words [] t); constructor).
  assert (Forall is_ascii (split t)) as Fa
    by (apply (split_from_ascii [] t); [constructor | exact Ht]).
  set (words := capitalize <$> split t).
  assert (Forall is_word words) as Fw'.
  { apply Forall_fmap. eapply Forall_impl; [exact Fw |].
    intros w Hw. apply capitalize_word, Hw. }
  assert (capitalize <$> words = words) as Ew.
  { unfold words. rewrite <- list_fmap_compose. apply Forall_fmap_ext_1.
    eapply Forall_impl; [exact Fa |]. simpl.
    intros w Hw. apply capitalize_twice, Hw. }
  destruct (join_clean words Fw') as (Cs & Ce & S & F).
  destruct (join words) as [| c r] eqn:Ej; [reflexivity |].
  unfold fix_location. cbn [truthy].
  rewrite (normalise_string_clean (c :: r)) by (assumption || discriminate).
  unfold capwords. rewrite <- Ej, (split_join _ Fw'), Ew. reflexivity.
Qed.

Lemma fix_location_twice_witness :
  fix_location (fix_location (lit " kabul   CITY "))
  = fix_location (lit " kabul   CITY ").
Proof.
  apply fix_location_twice. unfold is_ascii. repeat constructor.
Defined.

Example fix_location_kabul :
  fix_location (lit " kabul   CITY ") = lit "Kabul City"
  /\ fix_location (lit "   ") = [] /\ fix_location [] = [].
Proof. repeat split. Qed.

End FixLocationFixed.

Section MoreWitnesses.

Lemma flatten_spec_witness :
  lit "DFID" ∈ flatten roles_sample [lit "skipped"].
Proof.
  apply (proj2 (flatten_spec roles_sample [lit "skipped"])).
  exists (lit "funding"), [lit "ECHO"; lit "DFID"].
  split; [right; right; left |].
  split; [| right; left].
  intros H. apply list_elem_of_singleton in H. discriminate H.
Defined.

Lemma normalise_string_null_or_empty_witness :
  normalise_string (lit "   ") = Some [].
Proof.
  apply (proj2 (normalise_string_null_or_empty (lit "   "))). reflexivity.
Defined.

Lemma fix_location_empty_witness : fix_location (lit "   ") = [].
Proof.
  apply (fix_location_empty (lit "   ")).
  - unfold tabulated_text. repeat constructor.
  - reflexivity.
Defined.

Lemma fix_location_shape_witness :
  exists words,
    fix_location (lit " kabul   CITY ") = join words /\ Forall is_word words.
Proof.
  apply (fix_location_shape (lit " kabul   CITY ")).
  unfold tabulated_text. repeat constructor.
Defined.

Lemma add_unique_twice_witness :
  add_unique (Some (lit "Oxfam"))
    (add_unique (Some (lit "Oxfam")) [lit "CARE"])
  = add_unique (Some (lit "Oxfam")) [lit "CARE"].
Proof. apply add_unique_twice. Defined.

End MoreWitnesses.
